(** * Lil-Cheetah: route compiler, matcher and dispatch pipeline

    A shallow embedding of [src/index.js] (class [LilCheetah]) and the
    properties of its pattern compiler, its matcher and its request dispatch.

    Conventions of the embedding.
    - A JavaScript string is a [string], one character per code unit; the
      character at an index is read with [charCodeAt], which is [None] where
      JavaScript gives [NaN].
    - A JavaScript object used as a dictionary ([routes], [base_middlewares],
      the parameter object built by [exec]) is a [gmap string _].  Method names
      are taken not to be names of members of [Object.prototype] (the HTTP
      method names are upper case); the one inherited member that the code can
      reach with other keys, the setter [__proto__], is modelled in
      [set_property].
    - [undefined] or [null] in a place that otherwise holds a string is [None].
    - Code that can throw returns a [completion].  What is thrown, passed to
      [next] as an error or given as the reason of a rejection is an [Error]
      object with a [message]; an error handler writes to the response and
      returns.
    - A handler is a script: the calls it makes on its three arguments, the
      callbacks it registers for later, and the way its own call ends.  The
      state of a request holds the closure variables of [handleRequest], the
      promises that got a rejection callback and the registered callbacks;
      the event loop runs them when [handleRequest] has returned.  The trace
      of a request records what happened, in order.
    - Loops whose bound is not a structural argument get fuel, and a lemma
      that the fuel they are given is enough. *)

From Stdlib Require Import Ascii String ZArith Lia.
From stdpp Require Import base option list gmap strings.

Set Default Proof Using "Type".

(* ===================================================================== *)
(** * JavaScript strings *)
(* ===================================================================== *)

Module JsString.

(** [str.charCodeAt(index)]; [None] stands for [NaN]. *)
Definition charCodeAt (str : string) (index : nat) : option nat :=
  nat_of_ascii <$> String.get index str.

(** [str.charCodeAt(index) === code] *)
Definition char_is (str : string) (index : nat) (code : nat) : bool :=
  match charCodeAt str index with
  | Some c => Nat.eqb c code
  | None => false
  end.

(** [str.substring(from, to)]: both indices are clamped to the length and
    swapped when [from > to]. *)
Definition substring (str : string) (from to : nat) : string :=
  let len := String.length str in
  let a := Nat.min from len in
  let b := Nat.min to len in
  String.substring (Nat.min a b) (Nat.max a b - Nat.min a b) str.

(** [str.substring(from)] *)
Definition substring_from (str : string) (from : nat) : string :=
  substring str from (String.length str).

(** [a === b] on strings *)
Definition eqb (a b : string) : bool := bool_decide (a = b).

(** [str.split('/')]: the pieces between the separators; adjacent
    separators give empty pieces, and a string without separator is its own
    only piece. *)
Fixpoint split_slash (str : string) : list string :=
  match str with
  | EmptyString => [EmptyString]
  | String c rest =>
      if Nat.eqb (nat_of_ascii c) 47 then EmptyString :: split_slash rest
      else match split_slash rest with
           | piece :: pieces => String c piece :: pieces
           | [] => [String c EmptyString]
           end
  end.

(** The string holds the character [code] somewhere. *)
Definition contains (code : nat) (str : string) : Prop :=
  ∃ index, charCodeAt str index = Some code.

(** The string without its first [n] characters. *)
Fixpoint drop (n : nat) (str : string) : string :=
  match n, str with
  | 0, _ => str
  | S n', String _ rest => drop n' rest
  | S _, EmptyString => EmptyString
  end.

End JsString.

(* ===================================================================== *)
(** * Constants *)
(* ===================================================================== *)

Definition SEPARATOR : string := "/".

Module CHAR_CODES.
Definition SLASH : nat := 47.
Definition COLON : nat := 58.
Definition ASTERIX : nat := 42.
Definition QUESTION_MARK : nat := 63.
Definition ZERO_WIDTH : nat := 254 * 256 + 255. (* 65279 *)
Definition TABULATION : nat := 9.
Definition NEW_LINE : nat := 10.
Definition FORM_FEED : nat := 12.
Definition CARRIAGE_RETURN : nat := 13.
Definition SPACE : nat := 20.
Definition POUND : nat := 23.
Definition NO_BREAK_SPACE : nat := 160.
End CHAR_CODES.

(** [MATCH_TYPES] *)
Inductive MatchType : Set := STATIC | PARAMETER | ANY | OPTIONAL.

#[global] Instance MatchType_eq_dec : EqDecision MatchType.
Proof. solve_decision. Defined.

(** One element of a compiled pattern: [{ original, type, value }]. *)
Record Segment : Set := mkSegment {
  original : string;
  type : MatchType;
  value : string
}.

#[global] Instance Segment_eq_dec : EqDecision Segment.
Proof. solve_decision. Defined.

(* ===================================================================== *)
(** * [clean] and [split] *)
(* ===================================================================== *)

(** [while (str.charCodeAt(0) === SLASH) str = str.substring(1)] *)
Fixpoint drop_leading_slashes (str : string) : string :=
  match str with
  | String c rest =>
      if Nat.eqb (nat_of_ascii c) CHAR_CODES.SLASH
      then drop_leading_slashes rest
      else str
  | EmptyString => str
  end.

(** [while (str.charCodeAt(str.length - 1) === SLASH)
       str = str.substring(0, str.length - 1)].
    [n] bounds the characters that are left, so the body runs at most [n]
    times; on the empty string [charCodeAt(-1)] is [NaN] and the loop stops
    ([drop_trailing_slashes_stops] below). *)
Fixpoint drop_trailing_slashes (n : nat) (str : string) : string :=
  match n with
  | 0 => str
  | S n' =>
      if JsString.char_is str (String.length str - 1) CHAR_CODES.SLASH
      then drop_trailing_slashes n' (JsString.substring str 0 (String.length str - 1))
      else str
  end.

(** [static clean(str)] *)
Definition clean (str : string) : string :=
  if JsString.eqb str SEPARATOR then str
  else
    let str := drop_leading_slashes str in
    let str := drop_trailing_slashes (String.length str) str in
    if JsString.eqb str EmptyString then SEPARATOR else str.

(** [static split(str)] *)
Definition split (str : string) : list string :=
  let str := clean str in
  if JsString.eqb str SEPARATOR then [SEPARATOR]
  else JsString.split_slash str.

(* ===================================================================== *)
(** * The pattern compiler: [parseRoutePattern] *)
(* ===================================================================== *)

(** The [while] loop of the [COLON] branch.  [n] is
    [pattern_length - index], so [n = 0] is the loop test
    [index < pattern_length] failing.  Returns the final
    [(index, type, reset_index)]. *)
Fixpoint scan_parameter (n : nat) (pattern : string) (index : nat)
    (type : MatchType) (reset_index : nat) : nat * MatchType * nat :=
  match n with
  | 0 => (index, type, reset_index)
  | S n' =>
      if JsString.char_is pattern index CHAR_CODES.SLASH
      then (index, type, reset_index)
      else if JsString.char_is pattern index CHAR_CODES.QUESTION_MARK
      then scan_parameter n' pattern (S index) OPTIONAL index
      else scan_parameter n' pattern (S index) type reset_index
  end.

(** The [while] loop of the static branch; returns the final [index]. *)
Fixpoint scan_static (n : nat) (pattern : string) (index : nat) : nat :=
  match n with
  | 0 => index
  | S n' =>
      if JsString.char_is pattern index CHAR_CODES.SLASH
      then index
      else scan_static n' pattern (S index)
  end.

(** The [for] loop of [parseRoutePattern], one iteration per unit of
    [fuel]; [None] is the fuel running out before the loop test fails.  The
    recursive calls are at [index = 0] followed by the [index++] of the loop
    header, or at [index + 1] after the [continue] of the [ASTERIX] branch. *)
Fixpoint parse_loop (fuel : nat) (original pattern : string)
    (pattern_length index : nat) (result : list Segment)
    : option (list Segment) :=
  if negb (index <? pattern_length) then Some result
  else
    match fuel with
    | 0 => None
    | S fuel' =>
        if JsString.char_is pattern index CHAR_CODES.COLON then
          let param_index := index + 1 in
          let '(index', type, reset_index) :=
            scan_parameter (pattern_length - index) pattern index PARAMETER 0 in
          let result :=
            result ++ [mkSegment original type
                         (JsString.substring pattern param_index
                            (if reset_index =? 0 then index' else reset_index))] in
          parse_loop fuel' original (JsString.substring_from pattern index')
            (pattern_length - index') (0 + 1) result
        else if JsString.char_is pattern index CHAR_CODES.ASTERIX then
          let result :=
            result ++ [mkSegment original ANY (JsString.substring_from pattern index)] in
          parse_loop fuel' original pattern pattern_length (index + 1) result
        else
          let start_index := index in
          let index' := scan_static (pattern_length - index) pattern index in
          let result :=
            result ++ [mkSegment original STATIC
                         (JsString.substring pattern start_index index')] in
          parse_loop fuel' original (JsString.substring_from pattern index')
            (pattern_length - index') (0 + 1) result
    end.

(** [static parseRoutePattern(pattern)].  The loop gets one unit of fuel
    more than the cleaned pattern has characters; [parseRoutePattern_loop]
    below shows that the loop then returns, and returns this list. *)
Definition parseRoutePattern (pattern : string) : list Segment :=
  let original := pattern in
  let pattern := clean pattern in
  if JsString.eqb pattern SEPARATOR then
    [mkSegment original STATIC pattern]
  else
    default [] (parse_loop (S (String.length pattern)) original pattern
                  (String.length pattern) 0 []).

(* ===================================================================== *)
(** * Errors and completions *)
(* ===================================================================== *)

Inductive ErrorName : Set := ReferenceError | TypeError | RangeError | Error.

(** A thrown [Error] object: its constructor and its [message]. *)
Record js_error : Set := mkError {
  name : ErrorName;
  message : string
}.

#[global] Instance ErrorName_eq_dec : EqDecision ErrorName.
Proof. solve_decision. Defined.

#[global] Instance js_error_eq_dec : EqDecision js_error.
Proof. solve_decision. Defined.

(** How the evaluation of a piece of code ends. *)
Inductive completion (A : Type) : Type :=
  | Normal (a : A)
  | Throw (e : js_error).
Arguments Normal {A} a.
Arguments Throw {A} e.

#[global] Instance completion_ret : MRet completion := @Normal.

#[global] Instance completion_bind : MBind completion := λ A B k c,
  match c with
  | Normal a => k a
  | Throw e => Throw e
  end.

(* ===================================================================== *)
(** * The matcher *)
(* ===================================================================== *)

Section Matcher.

(** The matcher never looks inside a handler. *)
Context {Handler : Type}.

(** An entry of the route table: [{ pattern, handlers }]. *)
Record Route : Type := mkRoute {
  pattern : list Segment;
  handlers : list Handler
}.

(** [static isMatch(url_piece, pattern_piece)]; [url_piece] is [None] when
    [url_pieces[index]] is [undefined]. *)
Definition isMatch (url_piece : option string) (pattern_piece : Segment) : bool :=
  (bool_decide (Some (value pattern_piece) = url_piece)
     && bool_decide (type pattern_piece = STATIC))
  || (if bool_decide (url_piece = Some SEPARATOR)
      then bool_decide (type pattern_piece = OPTIONAL)
           || bool_decide (type pattern_piece = ANY)
      else negb (bool_decide (type pattern_piece = STATIC))).

(** The [for] loop of [isFullMatch], from position [index] on. *)
Fixpoint isFullMatch_from (url_pieces : list string) (index : nat)
    (pattern : list Segment) : bool :=
  match pattern with
  | [] => true
  | pattern_piece :: rest =>
      if negb (isMatch (url_pieces !! index) pattern_piece) then false
      else isFullMatch_from url_pieces (S index) rest
  end.

(** [static isFullMatch(url_pieces, pattern)] *)
Definition isFullMatch (url_pieces : list string) (pattern : list Segment) : bool :=
  isFullMatch_from url_pieces 0 pattern.

(** [pattern[pattern_length - 1].type === t]: reading [.type] of the
    [undefined] that an empty pattern gives throws. *)
Definition last_type_is (pattern : list Segment) (t : MatchType) : completion bool :=
  match last pattern with
  | Some pattern_piece => Normal (bool_decide (type pattern_piece = t))
  | None =>
      Throw (mkError TypeError "Cannot read properties of undefined (reading 'type')")
  end.

(** [a && b], [b] evaluated only when [a] is true. *)
Definition and_then (a : bool) (b : completion bool) : completion bool :=
  if a then b else Normal false.

(** The [for] loop of [matchRoutePattern] over the remaining route sets. *)
Fixpoint matchRoutePattern_loop (url_pieces : list string) (pieces : nat)
    (route_sets : list Route) : completion (list Route) :=
  match route_sets with
  | [] => Normal []
  | set :: rest =>
      let pattern := pattern set in
      let pattern_length := length pattern in
      let equal_length := pieces =? pattern_length in
      pattern_less_but_any ←
        and_then (pattern_length <? pieces) (last_type_is pattern ANY);
      pattern_more_but_optional ←
        and_then (pieces <? pattern_length) (last_type_is pattern OPTIONAL);
      if (equal_length || pattern_less_but_any || pattern_more_but_optional)
         && isFullMatch url_pieces pattern
      then Normal [set]
      else matchRoutePattern_loop url_pieces pieces rest
  end.

(** [static matchRoutePattern(url, route_sets)] *)
Definition matchRoutePattern (url : string) (route_sets : list Route)
    : completion (list Route) :=
  let cleaned_url := clean url in
  let url_pieces := split cleaned_url in
  let pieces := length url_pieces in
  matchRoutePattern_loop url_pieces pieces route_sets.

(** [parameters[key] = piece] on a plain object.  The key [__proto__] is
    the accessor inherited from [Object.prototype]; assigning a string to it
    is ignored and creates no property. *)
Definition set_property (key piece : string) (parameters : gmap string string)
    : gmap string string :=
  if JsString.eqb key "__proto__" then parameters
  else <[key := piece]> parameters.

(** The callback that [exec] gives to [forEach]. *)
Definition exec_step (url_pieces : list string) (parameters : gmap string string)
    (pattern_piece : Segment) (index : nat) : gmap string string :=
  match url_pieces !! index with
  | Some url_piece =>
      if JsString.eqb url_piece SEPARATOR then parameters
      else if negb (JsString.eqb url_piece EmptyString)
      then set_property (value pattern_piece) url_piece parameters
      else parameters
  | None => parameters
  end.

(** [pattern_pieces.forEach(...)], from position [index] on. *)
Fixpoint exec_from (url_pieces : list string) (index : nat)
    (pattern_pieces : list Segment) (parameters : gmap string string)
    : gmap string string :=
  match pattern_pieces with
  | [] => parameters
  | pattern_piece :: rest =>
      exec_from url_pieces (S index) rest
        (exec_step url_pieces parameters pattern_piece index)
  end.

(** [static exec(url, pattern_pieces)] *)
Definition exec (url : string) (pattern_pieces : list Segment) : gmap string string :=
  let parameters := ∅ in
  let url_pieces := split url in
  exec_from url_pieces 0 pattern_pieces parameters.

(** What [findRoute] returns for a match: [{ params, handlers }]. *)
Record RouteSet : Type := mkRouteSet {
  params : gmap string string;
  route_handlers : list Handler
}.

(** [findRoute(method, url)] on the table [routes]; [Normal None] is the
    [false] of no match.  [url] is [None] when the parsed URL has no
    pathname ([null]), and [clean] then throws on [str.charCodeAt]. *)
Definition findRoute (routes : gmap string (list Route))
    (method : string) (url : option string) : completion (option RouteSet) :=
  match url with
  | None =>
      Throw (mkError TypeError "Cannot read properties of null (reading 'charCodeAt')")
  | Some url =>
      let url := clean url in
      let method_specific_routes := default [] (routes !! method) in
      let wildcard_routes := default [] (routes !! "*") in
      let routes := method_specific_routes ++ wildcard_routes in
      matches ← matchRoutePattern url routes;
      match matches with
      | [] => Normal None
      | [match_] =>
          Normal (Some (mkRouteSet (exec url (pattern match_)) (handlers match_)))
      | _ => Throw (mkError RangeError ("Multiple handler matches for " +:+ url))
      end
  end.

(** [addRoute(method, pattern, ...handlers)] on the table. *)
Definition addRoute_table (method pattern : string) (handlers : list Handler)
    (routes : gmap string (list Route)) : gmap string (list Route) :=
  let parsed_pattern := parseRoutePattern pattern in
  <[method := default [] (routes !! method) ++ [mkRoute parsed_pattern handlers]]> routes.

End Matcher.

Arguments Route : clear implicits.
Arguments RouteSet : clear implicits.

(* ===================================================================== *)
(** * Requests, handlers and the application object *)
(* ===================================================================== *)

(** The result of URL parsing, as far as the dispatcher reads it.  A field
    is [None] when it is [undefined] or [null]. *)
Module Url.
Record t : Set := mk {
  pathname : option string;
  query : option string;
  search : option string
}.
End Url.

(** The fields of the request object that the dispatcher reads or writes;
    [path], [query] and [search] are [None] while the property is absent. *)
Record Request : Set := mkRequest {
  url : string;
  method : string;
  path : option string;
  query : option string;
  search : option string
}.

(** The state of a promise once the event loop has come to it. *)
Inductive settlement : Set :=
  | Pending
  | Fulfilled
  | Rejected (e : js_error).

(** What a handler returns. *)
Inductive js_result : Set :=
  | RetUndefined                 (* a falsy value: [result &&] stops *)
  | RetObject                    (* truthy, [result.catch] is not a function *)
  | RetPromise (s : settlement). (* [result.catch] is a function *)

(** What a handler does with its three arguments while it runs. *)
#[warnings="-register-all"]
Inductive action : Set :=
  | ResponseEnd (body : string)
      (* [response.end(body)] *)
  | CallNext (error : option js_error)
      (* [next(error)]; [None] is [next()] or a falsy argument *)
  | Later (callback : list action).
      (* registers a callback (a timer, the end of an I/O operation) that does
         [callback] with the same three arguments once the current job is
         over *)

(** The callbacks that a list of actions can register, nested ones
    included. *)
Fixpoint weight (a : action) : nat :=
  match a with
  | Later callback => S (sum_list_with weight callback)
  | ResponseEnd _ | CallNext _ => 0
  end.

Definition weights (actions : list action) : nat := sum_list_with weight actions.

(** A handler: from the request it sees to the actions it performs, in
    order, and the way its call ends. *)
Record Script : Set := mkScript {
  actions : list action;
  outcome : completion js_result
}.

Definition Handler : Type := Request → Script.

(** An error handler: the bodies it writes to the response. *)
Definition ErrorHandler : Type := js_error → Request → list string.

(** The instance fields of [LilCheetah] that registration and dispatch use. *)
Record LilCheetah : Type := mkLilCheetah {
  middlewares : list Handler;
  base_middlewares : gmap string (list Handler);
  routes : gmap string (list (Route Handler));
  error_handler : option ErrorHandler
}.

(** [defaultErrorHandler(error, request, response)] *)
Definition defaultErrorHandler : ErrorHandler :=
  λ error request, [message error].

(** [constructor(options)], where [options.error_handler] is [error_handler] *)
Definition new (error_handler : option ErrorHandler) : LilCheetah :=
  {| middlewares := [];
     base_middlewares := ∅;
     routes := ∅;
     error_handler := Some (default defaultErrorHandler error_handler) |}.

(** [static appendSeparator(path)] *)
Definition appendSeparator (path : string) : string :=
  if JsString.char_is path 0 CHAR_CODES.SLASH then path
  else SEPARATOR +:+ path.

(** The first argument of [use]: a function or a path string. *)
Inductive UseArg : Type :=
  | UseFunction (handler : Handler)
  | UsePath (path : string).

(** [use(path, ...handlers)] *)
Definition use (path : UseArg) (handlers : list Handler) (app : LilCheetah)
    : LilCheetah :=
  match path with
  | UseFunction path =>
      {| middlewares := middlewares app ++ path :: handlers;
         base_middlewares := base_middlewares app;
         routes := routes app;
         error_handler := error_handler app |}
  | UsePath path =>
      if JsString.eqb path SEPARATOR then
        {| middlewares := middlewares app ++ handlers;
           base_middlewares := base_middlewares app;
           routes := routes app;
           error_handler := error_handler app |}
      else
        let path := appendSeparator path in
        {| middlewares := middlewares app;
           base_middlewares :=
             <[path := default [] (base_middlewares app !! path) ++ handlers]>
               (base_middlewares app);
           routes := routes app;
           error_handler := error_handler app |}
  end.

(** [addRoute(method, pattern, ...handlers)] *)
Definition addRoute (method pattern : string) (handlers : list Handler)
    (app : LilCheetah) : LilCheetah :=
  {| middlewares := middlewares app;
     base_middlewares := base_middlewares app;
     routes := addRoute_table method pattern handlers (routes app);
     error_handler := error_handler app |}.

(** [this.all] and the per-method shortcuts bound in the constructor. *)
Definition all : string → list Handler → LilCheetah → LilCheetah := addRoute "*".
Definition get : string → list Handler → LilCheetah → LilCheetah := addRoute "GET".
Definition post : string → list Handler → LilCheetah → LilCheetah := addRoute "POST".

(* ===================================================================== *)
(** * [parseUrl] *)
(* ===================================================================== *)

(** The character codes on which [parseUrl] gives up its own scan. *)
Definition gives_up_on (code : nat) : bool :=
  bool_decide (code ∈ [CHAR_CODES.TABULATION; CHAR_CODES.NEW_LINE;
                       CHAR_CODES.FORM_FEED; CHAR_CODES.CARRIAGE_RETURN;
                       CHAR_CODES.SPACE; CHAR_CODES.POUND;
                       CHAR_CODES.NO_BREAK_SPACE; CHAR_CODES.ZERO_WIDTH]).

(** [!search_string] *)
Definition not_set (search_string : option string) : bool :=
  match search_string with
  | None => true
  | Some s => JsString.eqb s EmptyString
  end.

(** The [for] loop of [parseUrl]; [n] is [url.length - index].  [None] is
    the early [return native_parse_url(url)]. *)
Fixpoint parseUrl_loop (n : nat) (url : string) (index : nat)
    (pathname : string) (query search_string : option string)
    : option (string * option string * option string) :=
  match n with
  | 0 => Some (pathname, query, search_string)
  | S n' =>
      match JsString.charCodeAt url index with
      | Some code =>
          if code =? CHAR_CODES.QUESTION_MARK then
            if not_set search_string then
              parseUrl_loop n' url (S index)
                (JsString.substring url 0 index)
                (Some (JsString.substring_from url (index + 1)))
                (Some (JsString.substring_from url index))
            else parseUrl_loop n' url (S index) pathname query search_string
          else if gives_up_on code then None
          else parseUrl_loop n' url (S index) pathname query search_string
      | None => parseUrl_loop n' url (S index) pathname query search_string
      end
  end.

Section Dispatch.

(** Node's [url.parse], the external URL parser. *)
Variable native_parse_url : string → Url.t.

(** [static parseUrl(url)] *)
Definition parseUrl (url : string) : Url.t :=
  if negb (JsString.char_is url 0 CHAR_CODES.SLASH) then native_parse_url url
  else
    match parseUrl_loop (String.length url) url 0 url None None with
    | None => native_parse_url url
    | Some (pathname, query, search_string) =>
        Url.mk (Some pathname) query search_string
    end.

(** What can be observed of the handling of one request. *)
Inductive event : Set :=
  | EvInvoke (index : nat) (with_next : bool)
      (* [handlers[index](request, response, nxt)] is entered *)
  | EvResponseEnd (body : string)          (* [response.end(body)] *)
  | EvNext (error : option js_error)       (* a handler calls [next(error)] *)
  | EvThrow (e : js_error)                 (* a handler's call ends by [throw e] *)
  | EvReturn (result : js_result)          (* a handler's call returns *)
  | EvErrorHandler (e : js_error)          (* the error handler is entered *)
  | EvCallback (with_next : bool)
      (* a callback that a handler registered is entered *)
  | EvUncaught (e : js_error).
      (* an exception leaves a callback; nothing catches it *)

(** The last event of a handler's call. *)
Definition final (c : completion js_result) : event :=
  match c with
  | Normal result => EvReturn result
  | Throw e => EvThrow e
  end.

(** The mutable state of one [handleRequest] call: the closure variable
    [handler_index], what has happened so far, the promises that got a
    [catchError] callback attached, and the callbacks that handlers have
    registered, each with whether its handler was given a [next]. *)
Record Run : Set := mkRun {
  handler_index : nat;
  trace : list event;
  pending : list settlement;
  queue : list (bool * list action)
}.

Definition log (events : list event) (st : Run) : Run :=
  mkRun (handler_index st) (trace st ++ events) (pending st) (queue st).

Definition enqueue (with_next : bool) (callback : list action) (st : Run) : Run :=
  mkRun (handler_index st) (trace st) (pending st)
    (queue st ++ [(with_next, callback)]).

Section Request.

Variable app : LilCheetah.
Variable request : Request.

(** [handleError(error, request, response)] *)
Definition handleError (error : js_error) (st : Run) : Run :=
  match error_handler app with
  | Some error_handler =>
      log (EvErrorHandler error :: (EvResponseEnd <$> error_handler error request)) st
  | None =>
      log (EvErrorHandler error :: (EvResponseEnd <$> defaultErrorHandler error request)) st
  end.

(** [catchError(request, response, error)] *)
Definition catchError (error : js_error) (st : Run) : Run :=
  handleError error st.

(** [if (result && isFunction(result.catch)) result.catch(catchError...)] *)
Definition attach_catch (result : js_result) (st : Run) : Run :=
  match result with
  | RetPromise s =>
      mkRun (handler_index st) (trace st) (pending st ++ [s]) (queue st)
  | RetUndefined | RetObject => st
  end.

(** Actions run with the continuation [nxt] that the handler was given
    ([None] when it got [undefined]).  The result says whether the actions
    were cut short by an exception; the outer [option] is the fuel of the
    continuation. *)
Fixpoint run_actions (nxt : option (option js_error → Run → option Run))
    (actions : list action) (st : Run) : option (Run * option js_error) :=
  match actions with
  | [] => Some (st, None)
  | ResponseEnd body :: rest =>
      run_actions nxt rest (log [EvResponseEnd body] st)
  | CallNext error :: rest =>
      match nxt with
      | None => Some (st, Some (mkError TypeError "next is not a function"))
      | Some next =>
          st ← next error (log [EvNext error] st);
          run_actions nxt rest st
      end
  | Later callback :: rest =>
      run_actions nxt rest (enqueue (bool_decide (is_Some nxt)) callback st)
  end.

(** [handler(request, response, nxt)] *)
Definition call_handler (handler : Handler)
    (nxt : option (option js_error → Run → option Run)) (st : Run)
    : option (Run * completion js_result) :=
  let script := handler request in
  '(st, thrown) ← run_actions nxt (actions script) st;
  let c := match thrown with
           | Some e => Throw e
           | None => outcome script
           end in
  Some (log [final c] st, c).

(** The closure [next], over the closure [loop]. *)
Definition next (loop : Run → option Run) (error : option js_error) (st : Run)
    : option Run :=
  match error with
  | Some error => Some (handleError error st)
  | None => loop st
  end.

Section Chain.

(** [const handlers = [...middlewares, ...route_handlers]] *)
Variable handlers : list Handler.

(** The closure [loop]; [fuel] bounds how deep handlers call [next] inside
    one another, and [None] is the fuel running out. *)
Fixpoint loop (fuel : nat) (st : Run) : option Run :=
  match fuel with
  | 0 => None
  | S fuel' =>
      let handlers_length := length handlers in
      let nxt :=
        if (Z.of_nat (handler_index st) =? Z.of_nat handlers_length - 1)%Z
        then None
        else Some (next (loop fuel')) in
      let callee := handlers !! handler_index st in
      let index := handler_index st in
      let st := mkRun (S (handler_index st)) (trace st) (pending st) (queue st) in
      match callee with
      | None =>
          Some (handleError
                  (mkError TypeError "handlers[handler_index++] is not a function") st)
      | Some handler =>
          '(st, result) ←
            call_handler handler nxt (log [EvInvoke index (bool_decide (is_Some nxt))] st);
          match result with
          | Normal result => Some (attach_catch result st)
          | Throw e => Some (handleError e st)
          end
      end
  end.

End Chain.

(** Reading a [const] binding: [None] is the binding before its declaration
    has been evaluated (the temporal dead zone). *)
Definition read_const {A} (name : string) (binding : option A) : completion A :=
  match binding with
  | Some v => Normal v
  | None =>
      Throw (mkError ReferenceError
               ("Cannot access '" +:+ name +:+ "' before initialization"))
  end.

End Request.

(** What [handleRequest] leaves behind: the request object, the handler
    chain that the closures of the call share (empty when the call did not
    get as far as building it), and the run. *)
Record Handled : Type := mkHandled {
  request_after : Request;
  chain : list Handler;
  run : Run
}.

Definition start : Run := mkRun 0 [] [] [].

(** [handleRequest(request, response)].  The outer [option] is the fuel of
    [loop]; a [Throw] is an exception that leaves [handleRequest].  [loop]
    catches whatever a handler throws and hands it to an error handler that
    does not throw, so the [try] around the first [loop()] has nothing to
    catch. *)
Definition handleRequest (app : LilCheetah) (request : Request)
    : option (completion Handled) :=
  let parsed_url := parseUrl (url request) in
  match findRoute (routes app) (method request) (Url.pathname parsed_url) with
  | Throw e => Some (Throw e)
  | Normal None =>
      Some (Normal (mkHandled request [] (log [EvResponseEnd "404"] start)))
  | Normal (Some route_set) =>
      let request :=
        mkRequest (url request) (method request)
          (Url.pathname parsed_url) (Url.query parsed_url) (Url.search parsed_url) in
      let middlewares := middlewares app in
      let route_handlers := route_handlers route_set in
      (* [const handlers] of line 194 is in scope from the top of the function
         body, and not initialised before that line is reached *)
      let handlers : option (list Handler) := None in
      if (length middlewares =? 0) && (length (route_handlers) =? 1) then
        match read_const "handlers" handlers with
        | Normal handlers =>
            match handlers !! 0 with
            | Some handler =>
                '(st, result) ←
                  call_handler request handler None (log [EvInvoke 0 false] start);
                match result with
                | Normal result =>
                    Some (Normal (mkHandled request [] (attach_catch result st)))
                | Throw e =>
                    Some (Normal (mkHandled request [] (handleError app request e st)))
                end
            | None =>
                Some (Normal (mkHandled request []
                  (handleError app request
                     (mkError TypeError "handlers[0] is not a function") start)))
            end
        | Throw e =>
            Some (Normal (mkHandled request [] (handleError app request e start)))
        end
      else
        let handlers := middlewares ++ route_handlers in
        st ← loop app request handlers (S (length handlers)) start;
        Some (Normal (mkHandled request handlers st))
  end.

(** The callbacks attached with [result.catch] run once the current job is
    over: every rejected promise calls [catchError]. *)
Definition settle (app : LilCheetah) (request : Request) (st : Run) : Run :=
  foldl (λ st s,
           match s with
           | Rejected e => catchError app request e st
           | Pending | Fulfilled => st
           end)
        (mkRun (handler_index st) (trace st) [] (queue st)) (pending st).

(** The callbacks still to come, nested ones included: those of the handlers
    that have not been invoked and those of the registered callbacks. *)
Definition potential (request : Request) (handlers : list Handler) (st : Run) : nat :=
  sum_list_with (λ handler : Handler, weights (actions (handler request)))
    (drop (handler_index st) handlers)
  + sum_list_with (λ task : bool * list action, S (weights task.2)) (queue st).

Section EventLoop.

Variable app : LilCheetah.
Variable request : Request.
Variable handlers : list Handler.

(** The event loop after [handleRequest] has returned: the rejection
    callbacks of the job that is over, then the next registered callback, run
    with the [next] of its handler.  An exception that leaves a callback is
    caught by nothing and ends the process.  [fuel] bounds the callbacks that
    are run; [None] is the fuel running out. *)
Fixpoint drain (fuel : nat) (st : Run) : option Run :=
  match fuel with
  | 0 => None
  | S fuel' =>
      let st := settle app request st in
      match queue st with
      | [] => Some st
      | (with_next, callback) :: rest =>
          let st :=
            mkRun (handler_index st) (trace st ++ [EvCallback with_next])
              (pending st) rest in
          let nxt :=
            if with_next
            then Some (next app request
                         (loop app request handlers (S (length handlers))))
            else None in
          '(st, thrown) ← run_actions nxt callback st;
          match thrown with
          | Some e => Some (log [EvUncaught e] st)
          | None => drain fuel' st
          end
      end
  end.

End EventLoop.

(** A request from its arrival to the last callback.  The event loop gets
    one unit of fuel more than the handlers of the chain can register
    callbacks. *)
Definition serve (app : LilCheetah) (request : Request)
    : option (completion Handled) :=
  handled ← handleRequest app request;
  match handled with
  | Normal handled =>
      st ← drain app (request_after handled) (chain handled)
             (S (potential (request_after handled) (chain handled) start))
             (run handled);
      Some (Normal (mkHandled (request_after handled) (chain handled) st))
  | Throw e => Some (Throw e)
  end.

End Dispatch.

(* ===================================================================== *)
(** * Vocabulary of the statements *)
(* ===================================================================== *)

(** ** The compiler *)

(** What the loop of [parseRoutePattern] promises of a segment it appends
    while it works on [pattern]: the segment carries the source pattern; a
    value that is not a wildcard's holds no separator; a wildcard's value is
    the rest of [pattern] from a [*] on. *)
Definition segment_ok (source pattern : string) (segment : Segment) : Prop :=
  original segment = source
  ∧ (type segment ≠ ANY → ¬ JsString.contains CHAR_CODES.SLASH (value segment))
  ∧ (type segment = ANY →
     ∃ k, value segment = JsString.substring_from pattern k
          ∧ JsString.char_is pattern k CHAR_CODES.ASTERIX = true).

(** ** The matcher *)

(** A piece that [exec] records: present, not the separator, not empty. *)
Definition recorded (url_pieces : list string) (index : nat) (url_piece : string)
    : Prop :=
  url_pieces !! index = Some url_piece
  ∧ url_piece ≠ SEPARATOR ∧ url_piece ≠ EmptyString.

(** The test of [matchRoutePattern] on one route, for a pattern that is not
    empty. *)
Definition route_passes (url_pieces : list string) (pattern : list Segment) : bool :=
  let pieces := length url_pieces in
  let pattern_length := length pattern in
  ((pieces =? pattern_length)
   || ((pattern_length <? pieces) && bool_decide (type <$> last pattern = Some ANY))
   || ((pieces <? pattern_length)
       && bool_decide (type <$> last pattern = Some OPTIONAL)))
  && isFullMatch url_pieces pattern.

(** A route table whose patterns are not empty, as [addRoute] builds them. *)
Definition compiled {Handler : Type} (routes : gmap string (list (Route Handler)))
    : Prop :=
  ∀ method route_sets,
    routes !! method = Some route_sets →
    Forall (λ set, pattern set ≠ []) route_sets.

(** ** The dispatch pipeline *)

(** What [handleError] adds to the trace: the configured error handler is
    entered with the error, then writes its bodies. *)
Definition error_events (app : LilCheetah) (request : Request) (e : js_error)
    : list event :=
  EvErrorHandler e
  :: (EvResponseEnd <$> default defaultErrorHandler (error_handler app) e request).

Arguments error_events : simpl never.

(** Every error raised by a handler is followed at once by the events of the
    error handler for it: [block e] comes right after each [EvThrow e] and
    each [EvNext (Some e)]. *)
Fixpoint funnelled (block : js_error → list event) (t : list event) : Prop :=
  match t with
  | [] => True
  | ev :: rest =>
      match ev with
      | EvThrow e | EvNext (Some e) => block e `prefix_of` rest
      | _ => True
      end
      ∧ funnelled block rest
  end.

(** Every rejected promise that a handler returned is answered later by the
    events of the error handler for its error. *)
Fixpoint answered (block : js_error → list event) (t : list event) : Prop :=
  match t with
  | [] => True
  | ev :: rest =>
      match ev with
      | EvReturn (RetPromise (Rejected e)) =>
          ∃ mid post, rest = mid ++ block e ++ post
      | _ => True
      end
      ∧ answered block rest
  end.

(** The promises that handlers have returned, in order. *)
Definition returned (t : list event) : list settlement :=
  omap (λ ev, match ev with EvReturn (RetPromise s) => Some s | _ => None end) t.

(** What the rejection callbacks add to the trace. *)
Definition rejection_events (block : js_error → list event)
    (promises : list settlement) : list event :=
  promises ≫= λ s, match s with Rejected e => block e | Pending | Fulfilled => [] end.

(** A step of the run from [st] to [st']: the cursor does not go back, the
    trace grows by [seg], which is funnelled when [lead] is put in front of
    it, and the promises returned in [seg] are the ones that got a callback. *)
Definition grows (block : js_error → list event) (lead seg : list event)
    (st st' : Run) : Prop :=
  handler_index st ≤ handler_index st'
  ∧ trace st' = trace st ++ seg
  ∧ funnelled block (lead ++ seg)
  ∧ pending st' = pending st ++ returned seg.

(** A step that registers no more callbacks than [extra] and the potential
    of [st] allow. *)
Definition within (request : Request) (handlers : list Handler) (extra : nat)
    (st st' : Run) : Prop :=
  potential request handlers st' ≤ potential request handlers st + extra.

(** What a handler may assume of the continuation it is given, on states
    whose cursor is at [bound] or beyond. *)
Definition next_ok (block : js_error → list event) (request : Request)
    (handlers : list Handler) (bound : nat)
    (nxt : option (option js_error → Run → option Run)) : Prop :=
  ∀ k, nxt = Some k →
    ∀ error st, bound ≤ handler_index st →
      ∃ st' seg,
        k error st = Some st'
        ∧ grows block [EvNext error] seg st st'
        ∧ within request handlers 0 st st'.

(** What holds of a run between two jobs: its trace is funnelled, and the
    callbacks of its pending promises will answer every rejected promise
    returned so far. *)
Definition between_jobs (block : js_error → list event) (st : Run) : Prop :=
  funnelled block (trace st)
  ∧ answered block (trace st ++ rejection_events block (pending st)).

(** The request object once a route has been found. *)
Definition augmented (native_parse_url : string → Url.t) (request : Request)
    : Request :=
  let parsed_url := parseUrl native_parse_url (url request) in
  mkRequest (url request) (method request)
    (Url.pathname parsed_url) (Url.query parsed_url) (Url.search parsed_url).

(** The error that reading [handlers] in the single-handler branch throws. *)
Definition handlers_not_initialised : js_error :=
  mkError ReferenceError "Cannot access 'handlers' before initialization".

(** The registrations made on an application. *)
Inductive registration : Type :=
  | Use (path : UseArg) (handlers : list Handler)
  | AddRoute (method pattern : string) (handlers : list Handler).

Definition register (app : LilCheetah) (r : registration) : LilCheetah :=
  match r with
  | Use path handlers => use path handlers app
  | AddRoute method pattern handlers => addRoute method pattern handlers app
  end.

(** Two applications that agree on all that registration and dispatch read
    of the middleware list, the route table and the error handler. *)
Definition same_dispatch (a b : LilCheetah) : Prop :=
  middlewares a = middlewares b
  ∧ routes a = routes b
  ∧ error_handler a = error_handler b.

(** ** Concrete applications and requests *)

(** A URL parser that knows nothing: every request below starts with [/]
    and is parsed by [parseUrl]'s own scan. *)
Definition no_native_parse_url : string → Url.t := λ _, Url.mk None None None.

(** A handler that answers [ok]. *)
Definition ok_handler : Handler :=
  λ _, mkScript [ResponseEnd "ok"] (Normal RetUndefined).

(** A middleware that passes on, then throws. *)
Definition passing_then_throwing : Handler :=
  λ _, mkScript [CallNext None] (Throw (mkError Error "late")).

(** A handler that reports an error to [next] and returns a promise that
    rejects. *)
Definition reporting_then_rejecting : Handler :=
  λ _, mkScript [CallNext (Some (mkError Error "reported"))]
         (Normal (RetPromise (Rejected (mkError Error "rejected")))).

(** A middleware that calls [next] at once. *)
Definition passing : Handler :=
  λ _, mkScript [CallNext None] (Normal RetUndefined).

(** A middleware that returns at once and calls [next] from a callback. *)
Definition passing_later : Handler :=
  λ _, mkScript [Later [CallNext None]] (Normal RetUndefined).

(** A handler that throws. *)
Definition throwing : Handler :=
  λ _, mkScript [] (Throw (mkError Error "thrown")).

(** The trace of a request that was handled. *)
Definition trace_of (served : option (completion Handled)) : option (list event) :=
  match served with
  | Some (Normal handled) => Some (trace (run handled))
  | Some (Throw _) | None => None
  end.

(** A [GET] request as the transport hands it over. *)
Definition GET (url : string) : Request := mkRequest url "GET" None None None.

(** ** Vocabulary of the further properties *)

(** [pieces.join('/')] *)
Definition join (pieces : list string) : string := String.concat SEPARATOR pieces.

(** Every character of the string passes the test. *)
Fixpoint all_chars (test : nat → bool) (str : string) : bool :=
  match str with
  | EmptyString => true
  | String c rest => test (nat_of_ascii c) && all_chars test rest
  end.

(** A character code that [parseUrl] passes over without a second look:
    neither a [?] nor one of the codes on which it gives up. *)
Definition plain (code : nat) : bool :=
  negb (code =? CHAR_CODES.QUESTION_MARK) && negb (gives_up_on code).

(** The routes that [findRoute] looks at for a method: the method's own,
    then the wildcard method's. *)
Definition candidates {Handler : Type} (routes : gmap string (list (Route Handler)))
    (method : string) : list (Route Handler) :=
  default [] (routes !! method) ++ default [] (routes !! "*").

(** The first route of a list that passes the test of [matchRoutePattern]
    for a path. *)
Definition first_passing {Handler : Type} (url : string)
    (route_sets : list (Route Handler)) : option (Route Handler) :=
  head (filter (λ set, route_passes (split url) (pattern set) = true) route_sets).

(** An application as registration builds it. *)
Definition registered (error_handler : option ErrorHandler)
    (registrations : list registration) : LilCheetah :=
  foldl register (new error_handler) registrations.

(** A segment that is not Static. *)
Definition not_static (pattern_piece : Segment) : bool :=
  negb (bool_decide (type pattern_piece = STATIC)).

(** The handler calls of a trace: which handler of the chain, and whether it
    was given a [next]. *)
Definition invoked (t : list event) : list (nat * bool) :=
  omap (λ ev, match ev with
              | EvInvoke index with_next => Some (index, with_next)
              | _ => None
              end) t.

(** The handler calls that take the cursor of a chain of [n] handlers from
    [from] to [to]: one call for each position of the chain in between, in
    order, the last handler of the chain without a [next]. *)
Definition invocations (n from to : nat) : list (nat * bool) :=
  (λ index, (index, negb (index + 1 =? n)))
    <$> seq (Nat.min from n) (Nat.min to n - Nat.min from n).

(** A part of a run in which the handlers are called in the order of the
    chain, each at most once. *)
Definition in_order (n : nat) (st st' : Run) : Prop :=
  handler_index st ≤ handler_index st'
  ∧ invoked (trace st') = invoked (trace st) ++ invocations n (handler_index st) (handler_index st').

(** [str.lastIndexOf(code)] *)
Fixpoint last_index_of (code : nat) (str : string) : option nat :=
  match str with
  | EmptyString => None
  | String c rest =>
      match last_index_of code rest with
      | Some index => Some (S index)
      | None => if nat_of_ascii c =? code then Some 0 else None
      end
  end.

(** The segment that one piece of a pattern stands for: a piece that starts
    with [:] is a parameter, optional when it holds a [?], and its name is what
    lies between the [:] and the last [?]; the piece [*] is a wildcard; any
    other piece is static. *)
Definition piece_segment (original piece : string) : Segment :=
  if JsString.char_is piece 0 CHAR_CODES.COLON then
    match last_index_of CHAR_CODES.QUESTION_MARK piece with
    | Some index => mkSegment original OPTIONAL (JsString.substring piece 1 index)
    | None => mkSegment original PARAMETER (JsString.substring_from piece 1)
    end
  else if JsString.eqb piece "*" then mkSegment original ANY piece
  else mkSegment original STATIC piece.

(** No piece starts with [*], except that the last piece may be [*]. *)
Fixpoint wildcard_last (pieces : list string) : bool :=
  match pieces with
  | [] => true
  | piece :: rest =>
      match rest with
      | [] => negb (JsString.char_is piece 0 CHAR_CODES.ASTERIX) || JsString.eqb piece "*"
      | _ :: _ => negb (JsString.char_is piece 0 CHAR_CODES.ASTERIX) && wildcard_last rest
      end
  end.

(** The piece holds no [/]. *)
Definition no_slash (piece : string) : bool :=
  all_chars (λ code, negb (code =? CHAR_CODES.SLASH)) piece.

(** A piece that starts with neither [:] nor [*]. *)
Definition literal (piece : string) : bool :=
  negb (JsString.char_is piece 0 CHAR_CODES.COLON)
  && negb (JsString.char_is piece 0 CHAR_CODES.ASTERIX).

(** The handlers that a registration adds to the global middleware. *)
Definition global_handlers (r : registration) : list Handler :=
  match r with
  | Use (UseFunction handler) handlers => handler :: handlers
  | Use (UsePath path) handlers =>
      if JsString.eqb path SEPARATOR then handlers else []
  | AddRoute _ _ _ => []
  end.

(** The handlers that a registration adds to the bucket of [key]. *)
Definition scoped_handlers (key : string) (r : registration) : list Handler :=
  match r with
  | Use (UsePath path) handlers =>
      if negb (JsString.eqb path SEPARATOR) && JsString.eqb (appendSeparator path) key
      then handlers else []
  | _ => []
  end.

(** The action calls [next] without an error, at once or from a callback
    that it registers. *)
Fixpoint passes_on (a : action) : bool :=
  match a with
  | CallNext None => true
  | CallNext (Some _) => false
  | ResponseEnd _ => false
  | Later callback => existsb passes_on callback
  end.

(** No callback that waits calls [next] without an error. *)
Definition queue_holds (st : Run) : Prop :=
  Forall (λ task : bool * list action, existsb passes_on task.2 = false) (queue st).

(** A part of a run that leaves the cursor of the chain where it is, and
    registers no callback that would move it. *)
Definition held (st st' : Run) : Prop :=
  handler_index st' = handler_index st ∧ (queue_holds st → queue_holds st').

(* ===================================================================== *)
(** * Facts about JavaScript strings *)
(* ===================================================================== *)

Module JsStringFacts.
Import JsString.

Lemma get_drop n str index :
  String.get index (drop n str) = String.get (n + index) str.
Proof.
  revert str; induction n as [|n IH]; intros [|c rest]; simpl; auto.
Qed.

Lemma drop_drop n m str : drop m (drop n str) = drop (n + m) str.
Proof.
  revert str; induction n as [|n IH]; intros [|c rest]; simpl; auto.
  by destruct m.
Qed.

Lemma substring_all str : String.substring 0 (String.length str) str = str.
Proof. induction str as [|c rest IH]; simpl; congruence. Qed.

Lemma substring_past str n :
  String.length str ≤ n → String.substring n 0 str = EmptyString.
Proof.
  revert n; induction str as [|c rest IH]; intros [|n] H; simpl in *; auto; try lia.
  apply IH. lia.
Qed.

Lemma drop_past str n : String.length str ≤ n → drop n str = EmptyString.
Proof.
  revert n; induction str as [|c rest IH]; intros [|n] H; simpl in *; auto; try lia.
  apply IH. lia.
Qed.

Lemma substring_drop str n :
  n ≤ String.length str →
  String.substring n (String.length str - n) str = drop n str.
Proof.
  revert n; induction str as [|c rest IH]; intros [|n] H; simpl in *; auto; try lia.
  - f_equal. apply substring_all.
  - apply IH. lia.
Qed.

(** [str.substring(from)] drops the first [from] characters. *)
Lemma substring_from_drop str from : substring_from str from = drop from str.
Proof.
  unfold substring_from, substring.
  rewrite Nat.min_id.
  destruct (Nat.min_spec from (String.length str)) as [[Hlt ->]|[Hge ->]].
  - rewrite Nat.min_l, Nat.max_r by lia. apply substring_drop. lia.
  - rewrite Nat.min_id, Nat.max_id, Nat.sub_diag.
    rewrite substring_past, drop_past by lia. done.
Qed.

Lemma charCodeAt_substring_from str from index :
  charCodeAt (substring_from str from) index = charCodeAt str (from + index).
Proof. unfold charCodeAt. by rewrite substring_from_drop, get_drop. Qed.

Lemma char_is_substring_from str from index code :
  char_is (substring_from str from) index code = char_is str (from + index) code.
Proof. unfold char_is. by rewrite charCodeAt_substring_from. Qed.

Lemma substring_from_substring_from str n m :
  substring_from (substring_from str n) m = substring_from str (n + m).
Proof. rewrite !substring_from_drop. apply drop_drop. Qed.

Lemma substring_from_0 str : substring_from str 0 = str.
Proof. by rewrite substring_from_drop. Qed.

(** Every character of [str.substring(from, to)] is a character of [str] at
    a position between the two indices. *)
Lemma charCodeAt_substring str from to index code :
  charCodeAt (substring str from to) index = Some code →
  ∃ k, Nat.min from to ≤ k < Nat.max from to ∧ charCodeAt str k = Some code.
Proof.
  unfold charCodeAt, substring.
  set (len := String.length str).
  set (lo := Nat.min (Nat.min from len) (Nat.min to len)).
  set (hi := Nat.max (Nat.min from len) (Nat.min to len)).
  intros H.
  destruct (decide (index < hi - lo)) as [Hlt|Hge].
  - rewrite String.substring_correct1 in H by done.
    exists (index + lo). split; [lia|done].
  - rewrite String.substring_correct2 in H by lia. discriminate.
Qed.

(** A span without separator gives a substring without separator. *)
Lemma substring_without str from to code :
  (∀ k, Nat.min from to ≤ k < Nat.max from to → char_is str k code = false) →
  ¬ contains code (substring str from to).
Proof.
  intros Hspan [index H].
  apply charCodeAt_substring in H as (k & Hk & Hc).
  specialize (Hspan k Hk). unfold char_is in Hspan. rewrite Hc in Hspan.
  by rewrite Nat.eqb_refl in Hspan.
Qed.

End JsStringFacts.

Section CleanFacts.
Import JsString.

Lemma length_substring_le str n m : String.length (String.substring n m str) ≤ m.
Proof.
  revert n m; induction str as [|c rest IH]; intros [|n] [|m]; simpl; auto; try lia.
  specialize (IH 0 m). lia.
Qed.

(** The second loop of [clean] has run to its end: at the string it returns,
    the loop test fails. *)
Lemma drop_trailing_slashes_stops n str :
  String.length str ≤ n →
  let str' := drop_trailing_slashes n str in
  char_is str' (String.length str' - 1) CHAR_CODES.SLASH = false.
Proof.
  revert str; induction n as [|n IH]; intros str Hlen; simpl.
  - destruct str; [done|simpl in Hlen; lia].
  - destruct (char_is str (String.length str - 1) CHAR_CODES.SLASH) eqn:Hlast;
      [|exact Hlast].
    apply IH. unfold substring.
    pose proof (length_substring_le str
                  (Nat.min (Nat.min 0 (String.length str))
                     (Nat.min (String.length str - 1) (String.length str)))
                  (Nat.max (Nat.min 0 (String.length str))
                     (Nat.min (String.length str - 1) (String.length str))
                   - Nat.min (Nat.min 0 (String.length str))
                       (Nat.min (String.length str - 1) (String.length str)))).
    destruct str; [done|]. simpl String.length in *. lia.
Qed.

End CleanFacts.

(* ===================================================================== *)
(** * Properties of the pattern compiler *)
(* ===================================================================== *)

Section CompilerFacts.
Import JsString JsStringFacts.

Lemma scan_static_span n pattern index :
  let index' := scan_static n pattern index in
  index ≤ index' ≤ index + n
  ∧ ∀ k, index ≤ k < index' → char_is pattern k CHAR_CODES.SLASH = false.
Proof.
  revert index; induction n as [|n IH]; intros index; simpl.
  - split; [lia|]. intros k Hk; lia.
  - destruct (char_is pattern index CHAR_CODES.SLASH) eqn:Hc.
    + split; [lia|]. intros k Hk; lia.
    + destruct (IH (S index)) as [Hb Hs]. split; [lia|].
      intros k Hk. destruct (decide (k = index)) as [->|Hne]; [done|].
      apply Hs. lia.
Qed.

Lemma scan_parameter_span n pattern index type reset_index :
  let '(index', type', reset_index') :=
    scan_parameter n pattern index type reset_index in
  index ≤ index' ≤ index + n
  ∧ (∀ k, index ≤ k < index' → char_is pattern k CHAR_CODES.SLASH = false)
  ∧ (reset_index' = reset_index ∨ index ≤ reset_index' < index')
  ∧ (type' = type ∨ type' = OPTIONAL).
Proof.
  revert index type reset_index; induction n as [|n IH];
    intros index type reset_index; simpl.
  - repeat split; auto; try (intros; lia).
  - destruct (char_is pattern index CHAR_CODES.SLASH) eqn:Hc.
    { repeat split; auto; try (intros; lia). }
    destruct (char_is pattern index CHAR_CODES.QUESTION_MARK).
    + specialize (IH (S index) OPTIONAL index).
      destruct (scan_parameter n pattern (S index) OPTIONAL index)
        as [[index' type'] reset_index'].
      destruct IH as (Hb & Hs & Hr & Ht). repeat split; try lia.
      * intros k Hk. destruct (decide (k = index)) as [->|Hne]; [done|].
        apply Hs. lia.
      * right. by destruct Ht.
    + specialize (IH (S index) type reset_index).
      destruct (scan_parameter n pattern (S index) type reset_index)
        as [[index' type'] reset_index'].
      destruct IH as (Hb & Hs & Hr & Ht). repeat split; try lia; auto.
      intros k Hk. destruct (decide (k = index)) as [->|Hne]; [done|].
      apply Hs. lia.
Qed.

(** The [COLON] branch always consumes the colon it starts on. *)
Lemma scan_parameter_advances n pattern index type reset_index :
  char_is pattern index CHAR_CODES.COLON = true →
  index < (scan_parameter (S n) pattern index type reset_index).1.1.
Proof.
  intros Hcolon. simpl.
  assert (char_is pattern index CHAR_CODES.SLASH = false
          ∧ char_is pattern index CHAR_CODES.QUESTION_MARK = false) as [-> ->].
  { unfold char_is in *. destruct (charCodeAt pattern index) as [c|]; [|done].
    apply Nat.eqb_eq in Hcolon as ->. done. }
  pose proof (scan_parameter_span n pattern (S index) type reset_index) as H.
  destruct (scan_parameter n pattern (S index) type reset_index) as [[i t] r].
  simpl. lia.
Qed.

(** The loop of [parseRoutePattern] ends: more fuel than characters left is
    enough. *)
Lemma parse_loop_total fuel original pattern pattern_length index result :
  pattern_length - index < fuel →
  is_Some (parse_loop fuel original pattern pattern_length index result).
Proof.
  revert pattern pattern_length index result.
  induction fuel as [|fuel IH]; intros pattern pattern_length index result Hfuel.
  { lia. }
  simpl. destruct (index <? pattern_length) eqn:Hlt; simpl; [|by eexists].
  apply Nat.ltb_lt in Hlt.
  destruct (char_is pattern index CHAR_CODES.COLON) eqn:Hcolon.
  - destruct (pattern_length - index) as [|n] eqn:Hn; [lia|].
    pose proof (scan_parameter_advances n pattern index PARAMETER 0 Hcolon) as Hadv.
    destruct (scan_parameter (S n) pattern index PARAMETER 0) as [[index' type'] r].
    simpl in Hadv. apply IH. lia.
  - destruct (char_is pattern index CHAR_CODES.ASTERIX).
    + apply IH. lia.
    + pose proof (scan_static_span (pattern_length - index) pattern index) as [Hb _].
      apply IH. lia.
Qed.

Lemma segment_ok_shift source pattern index segment :
  segment_ok source (substring_from pattern index) segment →
  segment_ok source pattern segment.
Proof.
  intros (Ho & Hv & Ha). repeat split; auto.
  intros Hany. destruct (Ha Hany) as (k & Hk & Hstar).
  exists (index + k).
  by rewrite <- substring_from_substring_from, <- char_is_substring_from.
Qed.

Lemma parse_loop_appends fuel original pattern pattern_length index result res :
  parse_loop fuel original pattern pattern_length index result = Some res →
  ∃ more, res = result ++ more
          ∧ (index < pattern_length → more ≠ [])
          ∧ Forall (segment_ok original pattern) more.
Proof.
  revert pattern pattern_length index result.
  induction fuel as [|fuel IH]; intros pattern pattern_length index result; simpl.
  { destruct (index <? pattern_length) eqn:Hlt; simpl; [done|].
    intros [= <-]. exists []. rewrite app_nil_r.
    apply Nat.ltb_ge in Hlt. repeat split; [lia|constructor]. }
  destruct (index <? pattern_length) eqn:Hlt; simpl.
  2:{ intros [= <-]. exists []. rewrite app_nil_r.
      apply Nat.ltb_ge in Hlt. repeat split; [lia|constructor]. }
  destruct (char_is pattern index CHAR_CODES.COLON) eqn:Hcolon.
  - pose proof (scan_parameter_span (pattern_length - index) pattern index PARAMETER 0)
      as Hspan.
    destruct (pattern_length - index) as [|n] eqn:Hn.
    { apply Nat.ltb_lt in Hlt. lia. }
    pose proof (scan_parameter_advances n pattern index PARAMETER 0 Hcolon) as Hadv.
    destruct (scan_parameter (S n) pattern index PARAMETER 0) as [[index' type'] r].
    simpl in Hadv. destruct Hspan as (Hb & Hs & Hr & Ht).
    intros H. apply IH in H as (more & -> & _ & Hmore).
    eexists (_ :: more). rewrite <- app_assoc. split; [reflexivity|].
    split; [done|]. constructor.
    + repeat split; simpl.
      * intros _. apply substring_without. intros k Hk. apply Hs.
        destruct (r =? 0) eqn:Hr0; [lia|]. apply Nat.eqb_neq in Hr0. lia.
      * intros ->. by destruct Ht.
    + eapply Forall_impl; [exact Hmore|]. intros s. apply segment_ok_shift.
  - destruct (char_is pattern index CHAR_CODES.ASTERIX) eqn:Hstar.
    + intros H. apply IH in H as (more & -> & _ & Hmore).
      eexists (_ :: more). rewrite <- app_assoc. split; [reflexivity|].
      split; [done|]. constructor; [|done].
      repeat split; simpl; [done|]. intros _. by exists index.
    + pose proof (scan_static_span (pattern_length - index) pattern index) as [Hb Hs].
      intros H. apply IH in H as (more & -> & _ & Hmore).
      eexists (_ :: more). rewrite <- app_assoc. split; [reflexivity|].
      split; [done|]. constructor.
      * repeat split; simpl; [|done].
        intros _. apply substring_without. intros k Hk. apply Hs. lia.
      * eapply Forall_impl; [exact Hmore|]. intros s. apply segment_ok_shift.
Qed.

Lemma clean_not_empty str : clean str ≠ EmptyString.
Proof.
  unfold clean, JsString.eqb.
  repeat case_bool_decide; subst; try done.
Qed.

(** The loop that [parseRoutePattern] runs does return, and what it returns
    is the result of [parseRoutePattern]. *)
Lemma parseRoutePattern_loop pattern :
  clean pattern ≠ SEPARATOR →
  parse_loop (S (String.length (clean pattern))) pattern (clean pattern)
    (String.length (clean pattern)) 0 []
  = Some (parseRoutePattern pattern).
Proof.
  intros Hne. unfold parseRoutePattern, JsString.eqb.
  rewrite bool_decide_eq_false_2 by done.
  destruct (parse_loop_total (S (String.length (clean pattern))) pattern
              (clean pattern) (String.length (clean pattern)) 0 [])
    as [res Hres]; [lia|].
  by rewrite Hres.
Qed.

(** A compiled pattern is never empty. *)
Lemma parseRoutePattern_not_empty pattern : parseRoutePattern pattern ≠ [].
Proof.
  destruct (decide (clean pattern = SEPARATOR)) as [Heq|Hne].
  - unfold parseRoutePattern, JsString.eqb.
    by rewrite bool_decide_eq_true_2.
  - pose proof (parseRoutePattern_loop pattern Hne) as H.
    apply parse_loop_appends in H as (more & -> & Hmore & _). simpl.
    apply Hmore. pose proof (clean_not_empty pattern).
    destruct (clean pattern); simpl; [done|lia].
Qed.

End CompilerFacts.

(** C6, as the code has it.  The compiler returns a flat list of segments,
    each carrying the source pattern.  The root pattern compiles to the single
    Static segment [/].  For every other pattern, the value of a Static,
    Parameter or Optional segment holds no [/]; the value of an Any segment is
    the remainder of the cleaned pattern from its [*] on, whatever that
    remainder holds. *)
Theorem parseRoutePattern_segment_values (pattern : string) (segment : Segment) :
  segment ∈ parseRoutePattern pattern →
  original segment = pattern
  ∧ (clean pattern = SEPARATOR → segment = mkSegment pattern STATIC SEPARATOR)
  ∧ (clean pattern ≠ SEPARATOR → type segment ≠ ANY →
     ¬ JsString.contains CHAR_CODES.SLASH (value segment))
  ∧ (type segment = ANY →
     ∃ k, value segment = JsString.substring_from (clean pattern) k
          ∧ JsString.char_is (clean pattern) k CHAR_CODES.ASTERIX = true).
Proof.
  intros Hin.
  destruct (decide (clean pattern = SEPARATOR)) as [Heq|Hne].
  - unfold parseRoutePattern, JsString.eqb in Hin.
    rewrite bool_decide_eq_true_2 in Hin by done.
    apply list_elem_of_singleton in Hin as ->. rewrite Heq. simpl.
    repeat split; done.
  - pose proof (parseRoutePattern_loop pattern Hne) as H.
    apply parse_loop_appends in H as (more & Hmore & _ & Hok).
    simpl in Hmore. rewrite Hmore in Hin.
    rewrite Forall_forall in Hok. destruct (Hok _ Hin) as (Ho & Hv & Ha).
    repeat split; auto. done.
Qed.

(** The same at [/files/:name]: the Parameter segment [name] holds no [/]. *)
Lemma parseRoutePattern_segment_values_witness :
  original (mkSegment "/files/:name" PARAMETER "name") = "/files/:name"
  ∧ (clean "/files/:name" = SEPARATOR →
     mkSegment "/files/:name" PARAMETER "name"
     = mkSegment "/files/:name" STATIC SEPARATOR)
  ∧ (clean "/files/:name" ≠ SEPARATOR → PARAMETER ≠ ANY →
     ¬ JsString.contains CHAR_CODES.SLASH "name")
  ∧ (PARAMETER = ANY →
     ∃ k, "name" = JsString.substring_from (clean "/files/:name") k
          ∧ JsString.char_is (clean "/files/:name") k CHAR_CODES.ASTERIX = true).
Proof.
  apply (parseRoutePattern_segment_values "/files/:name"
           (mkSegment "/files/:name" PARAMETER "name")).
  apply (bool_decide_unpack _). vm_compute. exact I.
Defined.

(** C6, as the claim has it, fails at the pattern [/*/a]: its Any segment has
    the value [*/a], which holds a [/] at index 1. *)
Lemma any_segment_value_holds_separator :
  mkSegment "/*/a" ANY "*/a" ∈ parseRoutePattern "/*/a"
  ∧ JsString.contains CHAR_CODES.SLASH (value (mkSegment "/*/a" ANY "*/a")).
Proof.
  split.
  - apply (bool_decide_unpack _). vm_compute. exact I.
  - exists 1. reflexivity.
Qed.

(* ===================================================================== *)
(** * Properties of the matcher *)
(* ===================================================================== *)

Section MatcherFacts.

Context {Handler : Type}.
Implicit Types (route_sets : list (Route Handler)) (set : Route Handler).

(** [matchRoutePattern] returns as soon as one route passes: its result never
    has more than one element. *)
Lemma matchRoutePattern_loop_at_most_one url_pieces pieces route_sets matches :
  matchRoutePattern_loop url_pieces pieces route_sets = Normal matches →
  length matches ≤ 1.
Proof.
  induction route_sets as [|set rest IH]; simpl.
  - intros [= <-]. simpl. lia.
  - destruct (and_then _ (last_type_is (pattern set) ANY)) as [a|]; simpl; [|done].
    destruct (and_then _ (last_type_is (pattern set) OPTIONAL)) as [o|]; simpl; [|done].
    destruct (_ && _); [|exact IH].
    intros [= <-]. simpl. lia.
Qed.

(** So the [default] branch of [findRoute]'s [switch] is never taken: no
    table and no request make it throw its [RangeError]. *)
Lemma findRoute_never_RangeError (routes : gmap string (list (Route Handler)))
    method url msg :
  findRoute routes method url ≠ Throw (mkError RangeError msg).
Proof.
  unfold findRoute. destruct url as [url|]; [|discriminate].
  unfold matchRoutePattern. simpl.
  destruct (matchRoutePattern_loop _ _ _) as [matches|e] eqn:E; simpl.
  - apply matchRoutePattern_loop_at_most_one in E.
    destruct matches as [|m [|m' ms]]; simpl in *; try discriminate. lia.
  - intros [= ->]. revert E.
    generalize (default [] (routes !! method) ++ default [] (routes !! "*")).
    intros l. induction l as [|set rest IH]; simpl; [discriminate|].
    unfold last_type_is, and_then.
    repeat (case_match; simpl; try discriminate); auto.
Qed.

End MatcherFacts.

(** C1 (the code departs from the claim).  Two identical registrations
    [GET /a] and a request for [/a]: [findRoute] does not raise the
    ambiguity error, it returns the route registered first. *)
Theorem findRoute_duplicate_routes_first_wins (first second : list Handler) :
  findRoute (routes (get "/a" second (get "/a" first (new None))))
    "GET" (Some "/a")
  = Normal (Some (mkRouteSet {[ "a" := "a" ]} first)).
Proof. vm_compute. reflexivity. Qed.

(** C10.  The path [/users/] is cleaned to the single piece [users], and the
    two-segment pattern of [/users/:id] does not end in an Optional segment:
    the matcher finds nothing and [findRoute] answers no match. *)
Theorem trailing_slash_does_not_match_parameter (handlers : list Handler) :
  matchRoutePattern "/users/" [mkRoute (parseRoutePattern "/users/:id") handlers]
    = Normal []
  ∧ findRoute (routes (get "/users/:id" handlers (new None)))
      "GET" (Some "/users/") = Normal None.
Proof. split; vm_compute; reflexivity. Qed.

Section FirstMatch.

Context {Handler : Type}.

Lemma last_type_is_compiled (pattern : list Segment) t :
  pattern ≠ [] →
  last_type_is pattern t = Normal (bool_decide (type <$> last pattern = Some t)).
Proof.
  intros Hne. unfold last_type_is.
  destruct (last pattern) as [pattern_piece|] eqn:Hlast.
  - f_equal. apply bool_decide_ext. simpl. split; congruence.
  - by apply last_None in Hlast.
Qed.

(** On compiled patterns [matchRoutePattern] throws nothing and returns the
    first route that passes the test, alone, or nothing. *)
Lemma matchRoutePattern_loop_first url_pieces (route_sets : list (Route Handler)) :
  Forall (λ set, pattern set ≠ []) route_sets →
  matchRoutePattern_loop url_pieces (length url_pieces) route_sets
  = Normal (take 1 (filter (λ set, route_passes url_pieces (pattern set) = true)
                      route_sets)).
Proof.
  induction 1 as [|set rest Hset Hrest IH]; [done|].
  cbn [matchRoutePattern_loop].
  rewrite !last_type_is_compiled by done. rewrite IH, filter_cons.
  unfold route_passes, and_then.
  destruct (length (pattern set) <? length url_pieces);
    destruct (length url_pieces <? length (pattern set));
    destruct (length url_pieces =? length (pattern set));
    destruct (bool_decide (type <$> last (pattern set) = Some ANY));
    destruct (bool_decide (type <$> last (pattern set) = Some OPTIONAL));
    destruct (isFullMatch url_pieces (pattern set));
    simpl; try case_decide; done.
Qed.

(** The route tables that [addRoute] builds hold compiled patterns only. *)
Lemma compiled_empty : compiled (∅ : gmap string (list (Route Handler))).
Proof. intros method route_sets H. by rewrite lookup_empty in H. Qed.

Lemma compiled_addRoute method pattern handlers
    (routes : gmap string (list (Route Handler))) :
  compiled routes → compiled (addRoute_table method pattern handlers routes).
Proof.
  intros Hroutes method' route_sets. unfold addRoute_table.
  destruct (decide (method = method')) as [<-|Hne].
  - rewrite lookup_insert_eq. intros [= <-]. apply Forall_app. split.
    + destruct (routes !! method) as [sets|] eqn:Hsets; simpl; [|constructor].
      by apply (Hroutes method).
    + repeat constructor. simpl. apply parseRoutePattern_not_empty.
  - rewrite lookup_insert_ne by done. apply Hroutes.
Qed.

(** On a table of compiled patterns [findRoute] never throws for a request
    that has a path: no match happens exactly when no route of the method's
    list and of the wildcard list passes the test. *)
Lemma findRoute_no_match (routes : gmap string (list (Route Handler))) method url :
  compiled routes →
  findRoute routes method (Some url) = Normal None
  ↔ Forall (λ set, route_passes (split (clean (clean url))) (pattern set) = false)
      (default [] (routes !! method) ++ default [] (routes !! "*")).
Proof.
  intros Hroutes. unfold findRoute, matchRoutePattern.
  rewrite matchRoutePattern_loop_first.
  2:{ apply Forall_app. split.
      - destruct (routes !! method) eqn:H; simpl; [by apply (Hroutes method)|constructor].
      - destruct (routes !! "*") eqn:H; simpl; [by apply (Hroutes "*")|constructor]. }
  simpl.
  generalize (default [] (routes !! method) ++ default [] (routes !! "*")).
  intros sets. induction sets as [|set rest IH]; simpl.
  - split; [constructor|done].
  - rewrite filter_cons. case_decide as Hpass; simpl.
    + split; [done|]. intros H. apply Forall_cons in H as [H _]. congruence.
    + rewrite IH. split; [|by intros [_ ?]%Forall_cons].
      intros H. constructor; [|done]. by destruct (route_passes _ _).
Qed.

End FirstMatch.


Lemma compiled_register app r :
  compiled (routes app) → compiled (routes (register app r)).
Proof.
  destruct r as [[handler|path] handlers|method pattern handlers]; simpl; auto.
  - unfold use. by destruct (JsString.eqb path SEPARATOR).
  - apply compiled_addRoute.
Qed.

(* ===================================================================== *)
(** * Properties of parameter extraction *)
(* ===================================================================== *)

Section ExecFacts.

Lemma exec_step_lookup url_pieces parameters pattern_piece index key :
  exec_step url_pieces parameters pattern_piece index !! key
  = match url_pieces !! index with
    | Some url_piece =>
        if bool_decide (url_piece ≠ SEPARATOR ∧ url_piece ≠ EmptyString
                        ∧ value pattern_piece = key ∧ key ≠ "__proto__")
        then Some url_piece
        else parameters !! key
    | None => parameters !! key
    end.
Proof.
  unfold exec_step, set_property, JsString.eqb.
  destruct (url_pieces !! index) as [url_piece|]; [|done].
  repeat (case_bool_decide; simpl); try done.
  - destruct_and!. subst. contradiction.
  - destruct_and!. subst. contradiction.
  - destruct_and!. subst. contradiction.
  - destruct_and!. subst. by rewrite lookup_insert_eq.
  - rewrite lookup_insert_ne; [done|]. intros <-. tauto.
Qed.

Lemma exec_from_source url_pieces index pattern_pieces parameters key url_piece :
  exec_from url_pieces index pattern_pieces parameters !! key = Some url_piece →
  parameters !! key = Some url_piece
  ∨ ∃ j pattern_piece,
      pattern_pieces !! j = Some pattern_piece
      ∧ value pattern_piece = key
      ∧ recorded url_pieces (index + j) url_piece.
Proof.
  revert index parameters.
  induction pattern_pieces as [|pattern_piece rest IH]; intros index parameters;
    simpl; [by left|].
  intros H. apply IH in H as [H|(j & p & Hj & Hv & Hr)].
  - rewrite exec_step_lookup in H.
    destruct (url_pieces !! index) as [piece|] eqn:Hpiece; [|by left].
    case_bool_decide as Hc; [|by left].
    simplify_eq. destruct Hc as (? & ? & ? & ?).
    right. exists 0, pattern_piece. rewrite Nat.add_0_r. by repeat split.
  - right. exists (S j), p. replace (index + S j) with (S index + j) by lia.
    split; [exact Hj|]. by split.
Qed.

Lemma exec_from_untouched url_pieces index pattern_pieces parameters key :
  (∀ j pattern_piece,
     pattern_pieces !! j = Some pattern_piece → value pattern_piece ≠ key) →
  exec_from url_pieces index pattern_pieces parameters !! key = parameters !! key.
Proof.
  revert index parameters.
  induction pattern_pieces as [|pattern_piece rest IH]; intros index parameters Hno;
    simpl; [done|].
  rewrite IH by (intros j p Hj; apply (Hno (S j) p Hj)).
  rewrite exec_step_lookup.
  destruct (url_pieces !! index); [|done].
  case_bool_decide as Hc; [|done].
  destruct Hc as (_ & _ & Hv & _). by destruct (Hno 0 pattern_piece eq_refl).
Qed.

Lemma exec_from_records url_pieces index pattern_pieces parameters j
    pattern_piece url_piece :
  pattern_pieces !! j = Some pattern_piece →
  recorded url_pieces (index + j) url_piece →
  value pattern_piece ≠ "__proto__" →
  (∀ j' later, j < j' → pattern_pieces !! j' = Some later →
               value later ≠ value pattern_piece) →
  exec_from url_pieces index pattern_pieces parameters !! value pattern_piece
  = Some url_piece.
Proof.
  revert index parameters j.
  induction pattern_pieces as [|first rest IH]; intros index parameters j;
    [done|].
  destruct j as [|j]; simpl.
  - intros [= ->] (Hpiece & Hsep & Hempty) Hproto Hlater.
    rewrite exec_from_untouched.
    + rewrite exec_step_lookup. rewrite Nat.add_0_r in Hpiece. rewrite Hpiece.
      by rewrite bool_decide_eq_true_2.
    + intros j' p Hj'. apply (Hlater (S j') p); [lia|done].
  - intros Hj Hrec Hproto Hlater.
    apply (IH (S index) _ j); auto.
    + by replace (S index + j) with (index + S j) by lia.
    + intros j' p Hlt Hj'. apply (Hlater (S j') p); [lia|done].
Qed.

End ExecFacts.

(** C3, as the code has it.  [exec] records [value -> piece] at every
    position whose piece is present, not the separator and not empty,
    whatever the type of the segment: a Static segment is recorded under its
    own text.  (A later segment with the same value overwrites an earlier
    one, and the key [__proto__] is never created.)  Every entry comes from
    such a position.  So [/users/42] against [/users/:id] yields
    [{users: "users", id: "42"}]. *)
Theorem exec_records_every_segment_type :
  (∀ url pattern_pieces index pattern_piece url_piece,
     pattern_pieces !! index = Some pattern_piece →
     recorded (split url) index url_piece →
     value pattern_piece ≠ "__proto__" →
     (∀ j later, index < j → pattern_pieces !! j = Some later →
                 value later ≠ value pattern_piece) →
     exec url pattern_pieces !! value pattern_piece = Some url_piece)
  ∧ (∀ url pattern_pieces key url_piece,
       exec url pattern_pieces !! key = Some url_piece →
       ∃ index pattern_piece,
         pattern_pieces !! index = Some pattern_piece
         ∧ value pattern_piece = key
         ∧ recorded (split url) index url_piece)
  ∧ (∀ handlers : list Handler,
       findRoute (routes (get "/users/:id" handlers (new None)))
         "GET" (Some "/users/42")
       = Normal (Some (mkRouteSet {[ "users" := "users"; "id" := "42" ]} handlers))).
Proof.
  split; [|split].
  - intros url pattern_pieces index pattern_piece url_piece Hseg Hrec Hproto Hlater.
    unfold exec. by apply (exec_from_records _ 0 _ _ index).
  - intros url pattern_pieces key url_piece H. unfold exec in H.
    apply exec_from_source in H as [H|H]; [by rewrite lookup_empty in H|].
    exact H.
  - intros handlers. vm_compute. reflexivity.
Qed.

(** The first part at [/users/42] and the Static segment [users] of
    [/users/:id]: the parameter object has the key [users]. *)
Lemma exec_records_every_segment_type_witness :
  exec "/users/42" (parseRoutePattern "/users/:id") !! "users" = Some "users".
Proof.
  apply (proj1 exec_records_every_segment_type "/users/42"
           (parseRoutePattern "/users/:id") 0
           (mkSegment "/users/:id" STATIC "users") "users").
  - reflexivity.
  - split; [vm_compute; reflexivity|]. split; intros [=].
  - intros [=].
  - intros j later Hj Hlater.
    destruct j as [|[|j]]; [lia | | vm_compute in Hlater; discriminate].
    vm_compute in Hlater. injection Hlater as Hl. subst later. intros [=].
Defined.

(** C3, as the claim has it, fails at its own example: the parameter object
    for [/users/42] against [/users/:id] has an entry for the Static segment
    [users], so it is not [{id: "42"}]. *)
Lemma exec_static_segment_is_recorded :
  type (mkSegment "/users/:id" STATIC "users") = STATIC
  ∧ parseRoutePattern "/users/:id" !! 0 = Some (mkSegment "/users/:id" STATIC "users")
  ∧ exec (clean "/users/42") (parseRoutePattern "/users/:id") !! "users" = Some "users"
  ∧ exec (clean "/users/42") (parseRoutePattern "/users/:id")
    ≠ ({[ "id" := "42" ]} : gmap string string).
Proof.
  split; [reflexivity|]. split; [reflexivity|]. split; [by vm_compute|].
  intros H. apply (f_equal (λ m : gmap string string, m !! "users")) in H.
  vm_compute in H. discriminate.
Qed.

(** C4, as the code has it.  The pattern [/users/:id?] matches [/users] and
    [/users/5]; the parameter objects are [{users: "users"}] and
    [{users: "users", id: "5"}]. *)
Theorem optional_pattern_matches_both (handlers : list Handler) :
  findRoute (routes (get "/users/:id?" handlers (new None))) "GET" (Some "/users")
    = Normal (Some (mkRouteSet {[ "users" := "users" ]} handlers))
  ∧ findRoute (routes (get "/users/:id?" handlers (new None))) "GET" (Some "/users/5")
    = Normal (Some (mkRouteSet {[ "users" := "users"; "id" := "5" ]} handlers)).
Proof. split; vm_compute; reflexivity. Qed.

(** C4, as the claim has it, fails: the parameter object for [/users] is not
    empty. *)
Lemma optional_pattern_params_not_empty :
  ¬ (findRoute (routes (get "/users/:id?" [] (new None))) "GET" (Some "/users")
       = Normal (Some (mkRouteSet ∅ []))
     ∧ findRoute (routes (get "/users/:id?" [] (new None))) "GET" (Some "/users/5")
       = Normal (Some (mkRouteSet {[ "id" := "5" ]} []))).
Proof.
  intros [H _]. vm_compute in H. discriminate.
Qed.

(* ===================================================================== *)
(** * Properties of the dispatch pipeline *)
(* ===================================================================== *)

Section TraceFacts.

Variable block : js_error → list event.

Lemma funnelled_app t1 t2 :
  funnelled block t1 → funnelled block t2 → funnelled block (t1 ++ t2).
Proof.
  induction t1 as [|ev rest IH]; simpl; [done|].
  intros [Hev Hrest] H2. split; [|by apply IH].
  destruct ev as [| |[e|]|e| | | |]; try done; by apply prefix_app_r.
Qed.

Lemma funnelled_at pre ev post :
  funnelled block (pre ++ ev :: post) →
  match ev with
  | EvThrow e | EvNext (Some e) => block e `prefix_of` post
  | _ => True
  end.
Proof.
  induction pre as [|ev' pre IH]; simpl; intros [H1 H2]; [exact H1|by apply IH].
Qed.

Lemma returned_app t1 t2 : returned (t1 ++ t2) = returned t1 ++ returned t2.
Proof. apply omap_app. Qed.

End TraceFacts.

Section AnsweredFacts.

Variable block : js_error → list event.

Lemma answered_app t1 t2 :
  answered block t1 → answered block t2 → answered block (t1 ++ t2).
Proof.
  induction t1 as [|ev rest IH]; simpl; [done|].
  intros [Hev Hrest] H2. split; [|by apply IH].
  destruct ev as [| | | |[| |[| |e]]| | |]; try done.
  destruct Hev as (mid & post & ->). exists mid, (post ++ t2).
  by rewrite <- !app_assoc.
Qed.

Lemma answered_at pre ev post :
  answered block (pre ++ ev :: post) →
  match ev with
  | EvReturn (RetPromise (Rejected e)) => ∃ mid post', post = mid ++ block e ++ post'
  | _ => True
  end.
Proof.
  induction pre as [|ev' pre IH]; simpl; intros [H1 H2]; [exact H1|by apply IH].
Qed.

Lemma rejection_events_cons s promises :
  rejection_events block (s :: promises)
  = match s with Rejected e => block e | Pending | Fulfilled => [] end
    ++ rejection_events block promises.
Proof. reflexivity. Qed.

Lemma rejection_events_holds promises e :
  Rejected e ∈ promises →
  ∃ before after, rejection_events block promises = before ++ block e ++ after.
Proof.
  induction promises as [|s promises IH]; intros Hin.
  - by apply elem_of_nil in Hin.
  - apply elem_of_cons in Hin as [<-|Hin].
    + exists [], (rejection_events block promises). reflexivity.
    + destruct (IH Hin) as (before & after & Heq).
      exists (match s with Rejected e' => block e' | _ => [] end ++ before), after.
      by rewrite rejection_events_cons, Heq, <- app_assoc.
Qed.

(** A stretch of trace followed by events that hold the error handler's
    answer to each promise rejected in the stretch. *)
Lemma answered_by_callbacks t tail :
  (∀ e, Rejected e ∈ returned t → ∃ before after, tail = before ++ block e ++ after) →
  answered block tail →
  answered block (t ++ tail).
Proof.
  induction t as [|ev rest IH]; intros Hall Htail; simpl; [done|].
  split.
  - destruct ev as [| | | |[| |[| |e]]| | |]; try done.
    destruct (Hall e) as (before & after & ->); [simpl; left|].
    exists (rest ++ before), after. by rewrite <- app_assoc.
  - apply IH; [|done]. intros e He. apply Hall.
    unfold returned in *. simpl. destruct ev as [| | | |[| |s]| | |]; simpl; auto.
    by right.
Qed.

End AnsweredFacts.

Section HandlerFacts.

Variable app : LilCheetah.
Variable request : Request.

Local Abbreviation block := (error_events app request).

Lemma handleError_log e st :
  handleError app request e st = log (error_events app request e) st.
Proof. unfold handleError, error_events. by destruct (error_handler app). Qed.

(** The error handler's own events raise nothing. *)
Lemma error_events_quiet e :
  funnelled block (block e) ∧ returned (block e) = [] ∧ answered block (block e).
Proof.
  unfold error_events. simpl.
  generalize (default defaultErrorHandler (error_handler app) e request).
  intros bodies. induction bodies as [|b bodies (IH1 & IH2 & IH3)]; simpl; auto.
Qed.

Lemma rejection_events_quiet promises :
  funnelled block (rejection_events block promises)
  ∧ answered block (rejection_events block promises).
Proof.
  induction promises as [|s promises [IH1 IH2]]; [done|].
  rewrite rejection_events_cons. split.
  - apply funnelled_app; [|exact IH1].
    destruct s; simpl; try done. apply error_events_quiet.
  - apply answered_app; [|exact IH2].
    destruct s; simpl; try done. apply error_events_quiet.
Qed.

Lemma handleError_grows lead e st :
  funnelled block (lead ++ block e) →
  grows block lead (block e) st (handleError app request e st).
Proof.
  intros Hlead. rewrite handleError_log.
  destruct (error_events_quiet e) as (_ & Hquiet & _).
  unfold grows, log. cbn [handler_index trace pending].
  rewrite Hquiet, app_nil_r. auto.
Qed.

Section ChainFacts.

Variable handlers : list Handler.

Lemma handleError_within e st :
  within request handlers 0 st (handleError app request e st).
Proof. rewrite handleError_log. unfold within, potential. simpl. lia. Qed.

Lemma potential_log events st :
  potential request handlers (log events st) = potential request handlers st.
Proof. reflexivity. Qed.

Lemma potential_enqueue with_next callback st :
  potential request handlers (enqueue with_next callback st)
  = potential request handlers st + S (weights callback).
Proof.
  unfold potential, enqueue. simpl.
  rewrite sum_list_with_app. simpl. lia.
Qed.

(** Invoking the handler under the cursor takes its callbacks out of the
    potential. *)
Lemma potential_step handler st :
  handlers !! handler_index st = Some handler →
  potential request handlers st
  = potential request handlers
      (mkRun (S (handler_index st)) (trace st) (pending st) (queue st))
    + weights (actions (handler request)).
Proof.
  intros Hcallee. unfold potential. simpl.
  rewrite (drop_S handlers handler (handler_index st) Hcallee). simpl. lia.
Qed.

Lemma potential_step_none st :
  handlers !! handler_index st = None →
  potential request handlers
    (mkRun (S (handler_index st)) (trace st) (pending st) (queue st))
  = potential request handlers st.
Proof.
  intros Hcallee. unfold potential. simpl.
  apply lookup_ge_None in Hcallee.
  rewrite !drop_ge by lia. done.
Qed.

Lemma run_actions_grows bound nxt actions st :
  next_ok block request handlers bound nxt →
  bound ≤ handler_index st →
  ∃ st' thrown seg,
    run_actions nxt actions st = Some (st', thrown)
    ∧ handler_index st ≤ handler_index st'
    ∧ trace st' = trace st ++ seg
    ∧ funnelled block seg
    ∧ pending st' = pending st ++ returned seg
    ∧ within request handlers (weights actions) st st'
    ∧ (is_Some thrown → nxt = None)
    ∧ (nxt = None → returned seg = []).
Proof.
  intros Hnext. revert st.
  induction actions as [|[body|error|callback] rest IH]; intros st Hbound;
    cbn [run_actions].
  - exists st, None, []. rewrite !app_nil_r. unfold within, weights. simpl.
    repeat split; auto; try lia. by intros [? ?].
  - destruct (IH (log [EvResponseEnd body] st) Hbound)
      as (st' & thrown & seg & Hrun & Hidx & Htrace & Hfun & Hpend & Hpot & Hthrown & Hnone).
    exists st', thrown, (EvResponseEnd body :: seg).
    split; [exact Hrun|]. simpl in *. rewrite Htrace, Hpend, <- app_assoc.
    repeat split; auto.
  - destruct nxt as [k|].
    + destruct (Hnext k eq_refl error (log [EvNext error] st) Hbound)
        as (st1 & seg1 & Hk & (Hidx1 & Htrace1 & Hfun1 & Hpend1) & Hpot1).
      rewrite Hk. simpl in Hidx1, Htrace1, Hpend1. cbn [mbind option_bind].
      destruct (IH st1)
        as (st' & thrown & seg & Hrun & Hidx & Htrace & Hfun & Hpend & Hpot & Hthrown & _);
        [lia|].
      exists st', thrown, (EvNext error :: seg1 ++ seg).
      split; [exact Hrun|]. split; [lia|]. split; [|split; [|split; [|split; [|split]]]].
      * rewrite Htrace, Htrace1. simpl. by rewrite <- !app_assoc.
      * simpl. destruct Hfun1 as [Hlead Hseg1]. split.
        -- destruct error; [by apply prefix_app_r|done].
        -- by apply funnelled_app.
      * rewrite Hpend, Hpend1. simpl.
        destruct error; rewrite returned_app, <- app_assoc; done.
      * unfold within in *. rewrite potential_log in Hpot1.
        change (weights (CallNext error :: rest)) with (weights rest). lia.
      * exact Hthrown.
      * done.
    + exists st, (Some (mkError TypeError "next is not a function")), [].
      rewrite !app_nil_r. unfold within. repeat split; auto; lia.
  - destruct (IH (enqueue (bool_decide (is_Some nxt)) callback st) Hbound)
      as (st' & thrown & seg & Hrun & Hidx & Htrace & Hfun & Hpend & Hpot & Hthrown & Hnone).
    exists st', thrown, seg. split; [exact Hrun|].
    split; [exact Hidx|]. split; [exact Htrace|]. split; [exact Hfun|].
    split; [exact Hpend|]. split; [|by split].
    unfold within in *. rewrite potential_enqueue in Hpot.
    change (weights (Later callback :: rest))
      with (S (weights callback) + weights rest). lia.
Qed.

(** The chain always comes to an end, and funnels every error on the way:
    [loop] returns when its fuel covers the handlers that are left. *)
Lemma loop_grows fuel st :
  1 ≤ fuel →
  length handlers ≤ fuel + handler_index st →
  ∃ st' seg,
    loop app request handlers fuel st = Some st'
    ∧ handler_index st < handler_index st'
    ∧ grows block [] seg st st'
    ∧ within request handlers 0 st st'.
Proof.
  revert st. induction fuel as [|fuel IH]; intros st Hfuel Hlen; [lia|].
  cbn [loop]. destruct (handlers !! handler_index st) as [handler|] eqn:Hcallee.
  2:{ eexists _, _. split; [reflexivity|].
      destruct (handleError_grows []
                  (mkError TypeError "handlers[handler_index++] is not a function")
                  (mkRun (S (handler_index st)) (trace st) (pending st) (queue st)))
        as (Hidx & Htrace & Hfun & Hpend); [apply error_events_quiet|].
      pose proof (handleError_within
                    (mkError TypeError "handlers[handler_index++] is not a function")
                    (mkRun (S (handler_index st)) (trace st) (pending st) (queue st)))
        as Hpot.
      unfold within in *. rewrite potential_step_none in Hpot by done.
      cbn [handler_index trace pending] in *.
      split; [lia|]. split; [|lia]. split; [lia|]. split; [exact Htrace|].
      split; [exact Hfun|exact Hpend]. }
  set (nxt := if (Z.of_nat (handler_index st) =? Z.of_nat (length handlers) - 1)%Z
              then None
              else Some (next app request (loop app request handlers fuel))).
  set (st0 := log _ _).
  assert (next_ok block request handlers (S (handler_index st)) nxt) as Hnext.
  { intros k Hk error st1 Hbound. subst nxt.
    destruct (Z.eqb_spec (Z.of_nat (handler_index st)) (Z.of_nat (length handlers) - 1))
      as [|Hne]; [done|].
    injection Hk as <-.
    apply lookup_lt_Some in Hcallee.
    destruct error as [e|]; simpl.
    - eexists _, _. split; [reflexivity|]. split; [|apply handleError_within].
      apply handleError_grows.
      simpl. split; [done|]. apply error_events_quiet.
    - destruct (IH st1) as (st' & seg & Hloop & Hidx & Hgrows & Hpot); [lia|lia|].
      exists st', seg. split; [done|]. split; [|done].
      destruct Hgrows as (? & ? & ? & ?). repeat split; auto. }
  destruct (run_actions_grows (S (handler_index st)) nxt
              (actions (handler request)) st0 Hnext)
    as (st' & thrown & seg & Hrun & Hidx & Htrace & Hfun & Hpend & Hpot & _ & _);
    [simpl; lia|].
  unfold call_handler. rewrite Hrun. cbn [mbind option_bind].
  assert (potential request handlers st'
          ≤ potential request handlers st) as Hpot'.
  { unfold within in Hpot. rewrite (potential_step handler st Hcallee).
    subst st0. unfold log in Hpot. unfold potential in *. simpl in *. lia. }
  subst st0. simpl in Hidx, Htrace, Hpend.
  set (c := match thrown with Some e => Throw e | None => outcome (handler request) end).
  destruct c as [result|e] eqn:Hc.
  - exists (attach_catch result (log [EvReturn result] st')),
           (EvInvoke (handler_index st) (bool_decide (is_Some nxt))
              :: seg ++ [EvReturn result]).
    split; [reflexivity|].
    assert (handler_index (attach_catch result (log [EvReturn result] st'))
              = handler_index st'
            ∧ trace (attach_catch result (log [EvReturn result] st'))
              = trace st' ++ [EvReturn result]
            ∧ pending (attach_catch result (log [EvReturn result] st'))
              = pending st' ++ returned [EvReturn result]
            ∧ queue (attach_catch result (log [EvReturn result] st'))
              = queue st') as (Hi & Ht & Hp & Hq).
    { destruct result; simpl; rewrite ?app_nil_r; auto. }
    split; [lia|]. split.
    + split; [lia|]. split; [|split].
      * rewrite Ht, Htrace. simpl. by rewrite <- !app_assoc.
      * simpl. split; [done|]. apply funnelled_app; simpl; auto.
      * rewrite Hp, Hpend. simpl. by rewrite returned_app, <- app_assoc.
    + unfold within, potential in *. rewrite Hi, Hq. lia.
  - exists (handleError app request e (log [EvThrow e] st')),
           (EvInvoke (handler_index st) (bool_decide (is_Some nxt))
              :: (seg ++ [EvThrow e]) ++ block e).
    split; [reflexivity|].
    destruct (handleError_grows [EvThrow e] e (log [EvThrow e] st'))
      as (Hi & Ht & Hf & Hp).
    { simpl. split; [done|]. apply error_events_quiet. }
    pose proof (handleError_within e (log [EvThrow e] st')) as Hw.
    simpl in Hi, Ht, Hp.
    split; [lia|]. split.
    + split; [lia|]. split; [|split].
      * rewrite Ht, Htrace. simpl. by rewrite <- !app_assoc.
      * simpl. split; [done|]. rewrite <- app_assoc. by apply funnelled_app.
      * rewrite Hp, Hpend. simpl. rewrite !returned_app. simpl.
        by rewrite app_nil_r, <- app_assoc.
    + unfold within, potential in *. simpl in *. lia.
Qed.

(** The callbacks of the rejected promises add the error handler's events
    for each of them, in order, and change nothing else. *)
Lemma settle_trace st :
  trace (settle app request st) = trace st ++ rejection_events block (pending st)
  ∧ pending (settle app request st) = []
  ∧ handler_index (settle app request st) = handler_index st
  ∧ queue (settle app request st) = queue st.
Proof.
  unfold settle.
  assert (∀ promises st0,
    let st1 := foldl (λ st s, match s with
                              | Rejected e => catchError app request e st
                              | Pending | Fulfilled => st
                              end) st0 promises in
    trace st1 = trace st0 ++ rejection_events block promises
    ∧ pending st1 = pending st0
    ∧ handler_index st1 = handler_index st0
    ∧ queue st1 = queue st0) as H.
  { induction promises as [|s promises IH]; intros st0; cbn [foldl].
    - change (rejection_events block []) with (@nil event).
      by rewrite app_nil_r.
    - destruct (IH (match s with
                    | Rejected e => catchError app request e st0
                    | Pending | Fulfilled => st0
                    end)) as (-> & -> & -> & ->).
      rewrite rejection_events_cons.
      destruct s; simpl; auto. unfold catchError. rewrite handleError_log.
      simpl. by rewrite <- app_assoc. }
  apply (H (pending st) (mkRun (handler_index st) (trace st) [] (queue st))).
Qed.

(** The event loop comes to an end when its fuel exceeds the potential, and
    keeps the trace funnelled and answered. *)
Lemma drain_grows fuel st :
  potential request handlers st < fuel →
  between_jobs block st →
  ∃ st' seg,
    drain app request handlers fuel st = Some st'
    ∧ trace st' = trace st ++ seg
    ∧ funnelled block (trace st')
    ∧ answered block (trace st').
Proof.
  revert st. induction fuel as [|fuel IH]; intros st Hfuel [Hfun Hans]; [lia|].
  cbn [drain].
  destruct (settle_trace st) as (Htrace & Hpend & Hidx & Hqueue).
  set (st0 := settle app request st) in *.
  assert (funnelled block (trace st0)) as Hfun0.
  { rewrite Htrace. apply funnelled_app; [done|]. apply rejection_events_quiet. }
  assert (answered block (trace st0)) as Hans0 by (by rewrite Htrace).
  assert (potential request handlers st0 = potential request handlers st) as Hpot0.
  { unfold potential. by rewrite Hidx, Hqueue. }
  destruct (queue st0) as [|[with_next callback] rest] eqn:Hq.
  { exists st0, (rejection_events block (pending st)). by repeat split. }
  set (st1 := mkRun _ _ _ rest).
  set (nxt := if with_next then _ else None).
  assert (next_ok block request handlers 0 nxt) as Hnext.
  { intros k Hk error st2 _. subst nxt. destruct with_next; [|done].
    injection Hk as <-. destruct error as [e|]; simpl.
    - eexists _, _. split; [reflexivity|]. split; [|apply handleError_within].
      apply handleError_grows. simpl. split; [done|]. apply error_events_quiet.
    - destruct (loop_grows (S (length handlers)) st2)
        as (st' & seg & Hloop & _ & Hgrows & Hpot); [lia|lia|].
      exists st', seg. split; [done|]. split; [|done].
      destruct Hgrows as (? & ? & ? & ?). repeat split; auto. }
  destruct (run_actions_grows 0 nxt callback st1 Hnext)
    as (st2 & thrown & seg & Hrun & _ & Htrace2 & Hfun2 & Hpend2 & Hpot2 & Hthrown & Hnone);
    [lia|].
  rewrite Hrun. cbn [mbind option_bind].
  assert (potential request handlers st0
          = potential request handlers st1 + S (weights callback)) as Hpot1.
  { unfold potential. subst st1. rewrite Hq. simpl. lia. }
  subst st1. simpl in Htrace2, Hpend2. rewrite Hpend in Hpend2. simpl in Hpend2.
  unfold within in Hpot2.
  destruct thrown as [e|].
  - exists (log [EvUncaught e] st2),
           (rejection_events block (pending st)
            ++ [EvCallback with_next] ++ seg ++ [EvUncaught e]).
    split; [reflexivity|]. simpl. rewrite Htrace2, Htrace.
    split; [by rewrite <- !app_assoc|].
    rewrite <- Htrace, <- !app_assoc.
    split.
    + apply funnelled_app; [done|]. simpl. split; [done|].
      apply funnelled_app; [done|]. simpl. done.
    + apply answered_app; [done|].
      apply (answered_by_callbacks block (EvCallback with_next :: seg) [EvUncaught e]);
        [|simpl; done].
      rewrite (Hnone (Hthrown (mk_is_Some _ _ eq_refl))) in Hpend2.
      intros e' He'. simpl in He'.
      rewrite (Hnone (Hthrown (mk_is_Some _ _ eq_refl))) in He'.
      by apply elem_of_nil in He'.
  - destruct (IH st2) as (st' & seg' & Hdrain & Htrace' & Hfun' & Hans'); [lia| |].
    { split.
      - rewrite Htrace2, <- app_assoc.
        apply funnelled_app; [done|]. simpl. split; [done|]. done.
      - rewrite Htrace2, Hpend2, <- !app_assoc.
        apply answered_app; [done|].
        apply (answered_by_callbacks block (EvCallback with_next :: seg)).
        + intros e He. by apply rejection_events_holds.
        + apply rejection_events_quiet. }
    exists st', (rejection_events block (pending st)
                 ++ [EvCallback with_next] ++ seg ++ seg').
    split; [exact Hdrain|]. split; [|by split].
    rewrite Htrace', Htrace2, Htrace. by rewrite <- !app_assoc.
Qed.

End ChainFacts.

End HandlerFacts.

Section DispatchFacts.

Variable native_parse_url : string → Url.t.

(** [handleRequest] always returns, whatever [findRoute] answers. *)
Lemma handleRequest_cases app request :
  match findRoute (routes app) (method request)
          (Url.pathname (parseUrl native_parse_url (url request))) with
  | Throw e => handleRequest native_parse_url app request = Some (Throw e)
  | Normal None =>
      handleRequest native_parse_url app request
      = Some (Normal (mkHandled request [] (mkRun 0 [EvResponseEnd "404"] [] [])))
  | Normal (Some route_set) =>
      ∃ chain st,
        handleRequest native_parse_url app request
        = Some (Normal (mkHandled (augmented native_parse_url request) chain st))
        ∧ funnelled (error_events app (augmented native_parse_url request)) (trace st)
        ∧ pending st = returned (trace st)
        ∧ potential (augmented native_parse_url request) chain st
          ≤ potential (augmented native_parse_url request) chain start
        ∧ (length (middlewares app) = 0 → length (route_handlers route_set) = 1 →
           chain = []
           ∧ st = handleError app (augmented native_parse_url request)
                    handlers_not_initialised start)
  end.
Proof.
  unfold handleRequest.
  destruct (findRoute _ _ _) as [[route_set|]|e]; [|done|done].
  fold (augmented native_parse_url request).
  destruct (length (middlewares app) =? 0) eqn:Hm;
    [destruct (length (route_handlers route_set) =? 1) eqn:Hr|]; cbn [andb].
  - exists [], (handleError app (augmented native_parse_url request)
                  handlers_not_initialised start).
    split; [reflexivity|]. rewrite handleError_log.
    unfold log, start. cbn [trace pending handler_index Init.Datatypes.app].
    destruct (error_events_quiet app (augmented native_parse_url request)
                handlers_not_initialised) as (Hf & Hq & _).
    rewrite Hq. split; [done|]. split; [done|].
    split; [unfold potential; simpl; lia|done].
  - destruct (loop_grows app (augmented native_parse_url request)
                (middlewares app ++ route_handlers route_set)
                (S (length (middlewares app ++ route_handlers route_set))) start)
      as (st & seg & Hloop & _ & (_ & Htrace & Hfun & Hpend) & Hpot); [lia|lia|].
    rewrite Hloop. simpl in Htrace, Hpend, Hfun.
    exists (middlewares app ++ route_handlers route_set), st.
    rewrite Htrace, Hpend. unfold within in Hpot.
    split; [reflexivity|]. split; [done|]. split; [done|]. split; [lia|].
    intros _ Hone. apply Nat.eqb_neq in Hr. done.
  - destruct (loop_grows app (augmented native_parse_url request)
                (middlewares app ++ route_handlers route_set)
                (S (length (middlewares app ++ route_handlers route_set))) start)
      as (st & seg & Hloop & _ & (_ & Htrace & Hfun & Hpend) & Hpot); [lia|lia|].
    rewrite Hloop. simpl in Htrace, Hpend, Hfun.
    exists (middlewares app ++ route_handlers route_set), st.
    rewrite Htrace, Hpend. unfold within in Hpot.
    split; [reflexivity|]. split; [done|]. split; [done|]. split; [lia|].
    intros Hzero. apply Nat.eqb_neq in Hm. done.
Qed.

(** C2 (the code departs from the claim).  With no global middleware and a
    matched route of exactly one handler, [handleRequest] enters the branch
    that reads [handlers] before the [const] of that name is initialised.  The
    read throws a [ReferenceError] inside the [try]; the [catch] hands it to
    the error handler.  The handler of the route is not invoked: the whole
    trace is what the error handler does with that error. *)
Theorem single_handler_branch_never_invokes app request route_set :
  findRoute (routes app) (method request)
    (Url.pathname (parseUrl native_parse_url (url request)))
    = Normal (Some route_set) →
  length (middlewares app) = 0 →
  length (route_handlers route_set) = 1 →
  serve native_parse_url app request
  = Some (Normal (mkHandled (augmented native_parse_url request) []
            (mkRun 0
               (error_events app (augmented native_parse_url request)
                  handlers_not_initialised)
               [] [])))
  ∧ ∀ index with_next,
      EvInvoke index with_next
      ∉ error_events app (augmented native_parse_url request) handlers_not_initialised.
Proof.
  intros Hroute Hm Hr.
  pose proof (handleRequest_cases app request) as H. rewrite Hroute in H.
  destruct H as (chain & st & Hreq & _ & _ & _ & Hst).
  destruct (Hst Hm Hr) as [-> ->].
  split.
  - unfold serve. rewrite Hreq. rewrite handleError_log. reflexivity.
  - intros index with_next Hin. unfold error_events in Hin.
    apply elem_of_cons in Hin as [Hin|Hin]; [discriminate|].
    apply list_elem_of_fmap in Hin as (body & Heq & _). discriminate.
Qed.

(** C5.  [serve] always returns.  In the trace of a handled request, every
    error that a handler throws ([EvThrow e]) and every error that a handler
    passes to [next] ([EvNext (Some e)]) is followed at once by the events of
    the configured error handler for that error, and every rejected promise
    that a handler returns ([EvReturn (RetPromise (Rejected e))]) is followed
    later by them; this holds as well for the handlers that run from a
    callback in which an earlier handler calls [next].  The error handler is
    [error_handler] when it is set and [defaultErrorHandler], which writes the
    error's message, otherwise. *)
Theorem handler_errors_reach_error_handler app request :
  ∃ result,
    serve native_parse_url app request = Some result
    ∧ ∀ handled, result = Normal handled →
        let t := trace (run handled) in
        let block := error_events app (request_after handled) in
        (∀ e, block e
              = EvErrorHandler e
                :: (EvResponseEnd
                      <$> match error_handler app with
                          | Some error_handler => error_handler e (request_after handled)
                          | None => [message e]
                          end))
        ∧ (∀ pre post e, t = pre ++ EvThrow e :: post → block e `prefix_of` post)
        ∧ (∀ pre post e, t = pre ++ EvNext (Some e) :: post → block e `prefix_of` post)
        ∧ (∀ pre post e, t = pre ++ EvReturn (RetPromise (Rejected e)) :: post →
                         ∃ mid post', post = mid ++ block e ++ post').
Proof.
  pose proof (handleRequest_cases app request) as H. unfold serve.
  assert (∀ chain st,
    funnelled (error_events app (augmented native_parse_url request)) (trace st) →
    pending st = returned (trace st) →
    potential (augmented native_parse_url request) chain st
      ≤ potential (augmented native_parse_url request) chain start →
    ∃ st',
      drain app (augmented native_parse_url request) chain
        (S (potential (augmented native_parse_url request) chain start)) st = Some st'
      ∧ funnelled (error_events app (augmented native_parse_url request)) (trace st')
      ∧ answered (error_events app (augmented native_parse_url request)) (trace st'))
    as Hdrain.
  { intros chain st Hfun Hpend Hpot.
    destruct (drain_grows app (augmented native_parse_url request) chain
                (S (potential (augmented native_parse_url request) chain start)) st)
      as (st' & seg & Hd & _ & Hf & Ha); [lia| |by exists st'].
    split; [done|]. rewrite Hpend. apply answered_by_callbacks.
    - intros e He. by apply rejection_events_holds.
    - apply rejection_events_quiet. }
  assert (∀ request' t,
    funnelled (error_events app request') t →
    answered (error_events app request') t →
    (∀ e, error_events app request' e
          = EvErrorHandler e
            :: (EvResponseEnd
                  <$> match error_handler app with
                      | Some error_handler => error_handler e request'
                      | None => [message e]
                      end))
    ∧ (∀ pre post e, t = pre ++ EvThrow e :: post →
                     error_events app request' e `prefix_of` post)
    ∧ (∀ pre post e, t = pre ++ EvNext (Some e) :: post →
                     error_events app request' e `prefix_of` post)
    ∧ (∀ pre post e, t = pre ++ EvReturn (RetPromise (Rejected e)) :: post →
                     ∃ mid post', post = mid ++ error_events app request' e ++ post'))
    as Hread.
  { intros request' t Hall Hans. split; [|split; [|split]].
    - intros e. unfold error_events. by destruct (error_handler app).
    - intros pre post e Heq. rewrite Heq in Hall.
      apply (funnelled_at _ pre (EvThrow e) post Hall).
    - intros pre post e Heq. rewrite Heq in Hall.
      apply (funnelled_at _ pre (EvNext (Some e)) post Hall).
    - intros pre post e Heq. rewrite Heq in Hans.
      apply (answered_at _ pre (EvReturn (RetPromise (Rejected e))) post Hans). }
  destruct (findRoute _ _ _) as [[route_set|]|e].
  - destruct H as (hs & st & -> & Hfun & Hpend & Hpot & _).
    cbn [mbind option_bind request_after chain run].
    destruct (Hdrain hs st Hfun Hpend Hpot) as (st' & -> & Hf & Ha).
    eexists. split; [reflexivity|]. intros handled [= <-].
    apply Hread; done.
  - rewrite H. eexists. split; [reflexivity|]. intros handled [= <-].
    apply Hread; simpl; done.
  - rewrite H. simpl. eexists. split; [reflexivity|]. intros handled [=].
Qed.

(** C7, as the code has it.  [handleRequest] parses the URL first and gives
    the parsed pathname to [findRoute].  The parsed [path], [query] and
    [search] are written to the request object only when [findRoute] has
    returned a route; on no match the request object is left as it was (and
    an exception of [findRoute] leaves [handleRequest] at once). *)
Theorem request_augmented_only_on_match app request :
  let parsed_url := parseUrl native_parse_url (url request) in
  match findRoute (routes app) (method request) (Url.pathname parsed_url) with
  | Normal (Some route_set) =>
      ∃ chain st,
        handleRequest native_parse_url app request
        = Some (Normal (mkHandled
                  (mkRequest (url request) (method request)
                     (Url.pathname parsed_url) (Url.query parsed_url)
                     (Url.search parsed_url)) chain st))
  | Normal None =>
      ∃ chain st,
        handleRequest native_parse_url app request
        = Some (Normal (mkHandled request chain st))
  | Throw e => handleRequest native_parse_url app request = Some (Throw e)
  end.
Proof.
  pose proof (handleRequest_cases app request) as H. simpl.
  destruct (findRoute _ _ _) as [[route_set|]|e]; [|by eexists _, _|done].
  destruct H as (chain & st & H & _). by exists chain, st.
Qed.

(** C9.  When [findRoute] finds no route for the request, the whole handling
    of the request is the single write [response.end('404')]; the request
    object is left as it was and the error handler is not entered. *)
Theorem no_match_writes_404 app request :
  findRoute (routes app) (method request)
    (Url.pathname (parseUrl native_parse_url (url request))) = Normal None →
  serve native_parse_url app request
  = Some (Normal (mkHandled request [] (mkRun 0 [EvResponseEnd "404"] [] [])))
  ∧ ∀ handled e,
      serve native_parse_url app request = Some (Normal handled) →
      EvErrorHandler e ∉ trace (run handled).
Proof.
  intros Hnone.
  pose proof (handleRequest_cases app request) as H. rewrite Hnone in H.
  assert (serve native_parse_url app request
          = Some (Normal (mkHandled request [] (mkRun 0 [EvResponseEnd "404"] [] []))))
    as Hserve.
  { unfold serve. rewrite H. reflexivity. }
  split; [exact Hserve|].
  intros handled e. rewrite Hserve. intros [= <-]. simpl.
  intros Hin. apply list_elem_of_singleton in Hin. discriminate.
Qed.

Lemma register_same_dispatch a b r :
  same_dispatch a b → same_dispatch (register a r) (register b r).
Proof.
  intros (Hm & Hr & He).
  destruct r as [[handler|path] handlers|method pattern handlers]; simpl.
  - unfold same_dispatch. simpl. by rewrite Hm.
  - unfold use. destruct (JsString.eqb path SEPARATOR);
      unfold same_dispatch; simpl; by rewrite ?Hm.
  - unfold same_dispatch, addRoute. simpl. by rewrite Hr.
Qed.

Lemma same_dispatch_serve a b request :
  same_dispatch a b →
  serve native_parse_url a request = serve native_parse_url b request.
Proof.
  destruct a as [ma ba ra ea], b as [mb bb rb eb].
  intros (Hm & Hr & He). simpl in *. by subst.
Qed.

(** C8.  [use] with a path other than [/] changes the path-scoped bucket
    and nothing else; as no later registration and no request reads that
    bucket, every request is handled as if the call had not been made,
    whatever is registered afterwards. *)
Theorem use_path_only_fills_bucket app path handlers :
  path ≠ SEPARATOR →
  let app' := use (UsePath path) handlers app in
  middlewares app' = middlewares app
  ∧ routes app' = routes app
  ∧ error_handler app' = error_handler app
  ∧ base_middlewares app'
    = <[appendSeparator path :=
          default [] (base_middlewares app !! appendSeparator path) ++ handlers]>
        (base_middlewares app)
  ∧ ∀ later request,
      serve native_parse_url (foldl register app' later) request
      = serve native_parse_url (foldl register app later) request.
Proof.
  intros Hpath. simpl. unfold use, JsString.eqb.
  rewrite bool_decide_eq_false_2 by done. simpl.
  repeat split.
  intros later request. apply same_dispatch_serve.
  assert (∀ a b, same_dispatch a b →
                 same_dispatch (foldl register a later) (foldl register b later)) as H.
  { induction later as [|r later IH]; intros a b Hab; simpl; [done|].
    apply IH. by apply register_same_dispatch. }
  apply H. by repeat split.
Qed.

End DispatchFacts.

(* ===================================================================== *)
(** * The statements at concrete requests *)
(* ===================================================================== *)

(** One application, one request: [GET /a] served by the only route, of one
    handler, with no middleware. *)
Lemma single_handler_branch_never_invokes_witness :
  serve no_native_parse_url (get "/a" [ok_handler] (new None)) (GET "/a")
  = Some (Normal (mkHandled (augmented no_native_parse_url (GET "/a")) []
            (mkRun 0
               (error_events (get "/a" [ok_handler] (new None))
                  (augmented no_native_parse_url (GET "/a"))
                  handlers_not_initialised)
               [] [])))
  ∧ ∀ index with_next,
      EvInvoke index with_next
      ∉ error_events (get "/a" [ok_handler] (new None))
          (augmented no_native_parse_url (GET "/a")) handlers_not_initialised.
Proof.
  apply (single_handler_branch_never_invokes no_native_parse_url
           (get "/a" [ok_handler] (new None)) (GET "/a")
           (mkRouteSet {[ "a" := "a" ]} [ok_handler])).
  - vm_compute. reflexivity.
  - reflexivity.
  - reflexivity.
Defined.

(** The trace of that request, written out: the error handler answers with
    the message of the [ReferenceError], and [ok] is never written. *)
Example single_handler_trace :
  serve no_native_parse_url (get "/a" [ok_handler] (new None)) (GET "/a")
  = Some (Normal (mkHandled (mkRequest "/a" "GET" (Some "/a") None None) []
            (mkRun 0
               [EvErrorHandler handlers_not_initialised;
                EvResponseEnd "Cannot access 'handlers' before initialization"]
               [] []))).
Proof. vm_compute. reflexivity. Qed.

(** With a second handler on the route the chain is run, and [ok] is
    written. *)
Example two_handlers_trace :
  trace_of (serve no_native_parse_url
              (get "/a" [passing; ok_handler] (new None)) (GET "/a"))
  = Some [EvInvoke 0 true; EvNext None;
          EvInvoke 1 false; EvResponseEnd "ok"; EvReturn RetUndefined;
          EvReturn RetUndefined].
Proof. vm_compute. reflexivity. Qed.

(** A chain in which all three kinds of handler error occur. *)
Example chain_trace :
  trace_of (serve no_native_parse_url
              (use (UseFunction passing_then_throwing) []
                 (get "/a" [reporting_then_rejecting; ok_handler] (new None)))
              (GET "/a?x=1"))
  = Some [EvInvoke 0 true;
          EvNext None;
          EvInvoke 1 true;
          EvNext (Some (mkError Error "reported"));
          EvErrorHandler (mkError Error "reported");
          EvResponseEnd "reported";
          EvReturn (RetPromise (Rejected (mkError Error "rejected")));
          EvThrow (mkError Error "late");
          EvErrorHandler (mkError Error "late");
          EvResponseEnd "late";
          EvErrorHandler (mkError Error "rejected");
          EvResponseEnd "rejected"].
Proof. vm_compute. reflexivity. Qed.

(** A middleware that calls [next] from a callback: the handler after it
    runs inside that callback, outside the [try] of [handleRequest], and what
    it throws still reaches the error handler. *)
Example deferred_next_trace :
  trace_of (serve no_native_parse_url
              (use (UseFunction passing_later) []
                 (get "/a" [throwing] (new None)))
              (GET "/a"))
  = Some [EvInvoke 0 true;
          EvReturn RetUndefined;
          EvCallback true;
          EvNext None;
          EvInvoke 1 false;
          EvThrow (mkError Error "thrown");
          EvErrorHandler (mkError Error "thrown");
          EvResponseEnd "thrown"].
Proof. vm_compute. reflexivity. Qed.

(** C7, as the claim has it, fails on a request that matches nothing:
    [parseUrl] has resolved the three fields, [findRoute] finds no route, and
    the request object that [handleRequest] leaves has none of them. *)
Lemma no_match_leaves_request_unaugmented :
  parseUrl no_native_parse_url (url (GET "/missing?x=1"))
    = Url.mk (Some "/missing") (Some "x=1") (Some "?x=1")
  ∧ findRoute (routes (get "/a" [ok_handler] (new None))) "GET" (Some "/missing")
    = Normal None
  ∧ ∃ chain st,
      handleRequest no_native_parse_url (get "/a" [ok_handler] (new None))
        (GET "/missing?x=1")
      = Some (Normal (mkHandled
                (mkRequest "/missing?x=1" "GET" None None None) chain st)).
Proof.
  split; [by vm_compute|]. split; [by vm_compute|].
  eexists _, _. vm_compute. reflexivity.
Qed.

(** [GET /b] on an application that only has [GET /a]. *)
Lemma no_match_writes_404_witness :
  serve no_native_parse_url (get "/a" [ok_handler] (new None)) (GET "/b")
  = Some (Normal (mkHandled (GET "/b") [] (mkRun 0 [EvResponseEnd "404"] [] [])))
  ∧ ∀ handled e,
      serve no_native_parse_url (get "/a" [ok_handler] (new None)) (GET "/b")
      = Some (Normal handled) →
      EvErrorHandler e ∉ trace (run handled).
Proof.
  apply (no_match_writes_404 no_native_parse_url
           (get "/a" [ok_handler] (new None)) (GET "/b")).
  vm_compute. reflexivity.
Defined.

(** [use('admin', ok_handler)] on a fresh application. *)
Lemma use_path_only_fills_bucket_witness :
  let app' := use (UsePath "admin") [ok_handler] (new None) in
  middlewares app' = middlewares (new None)
  ∧ routes app' = routes (new None)
  ∧ error_handler app' = error_handler (new None)
  ∧ base_middlewares app'
    = <[appendSeparator "admin" :=
          default [] (base_middlewares (new None) !! appendSeparator "admin")
          ++ [ok_handler]]>
        (base_middlewares (new None))
  ∧ ∀ later request,
      serve no_native_parse_url (foldl register app' later) request
      = serve no_native_parse_url (foldl register (new None) later) request.
Proof.
  apply (use_path_only_fills_bucket no_native_parse_url (new None) "admin" [ok_handler]).
  intros [=].
Defined.

(** The chain of [chain_trace]: its run returns, and each of its three
    handler errors is followed by the events of the default error handler. *)
Lemma handler_errors_reach_error_handler_witness :
  ∃ result,
    serve no_native_parse_url
      (use (UseFunction passing_then_throwing) []
         (get "/a" [reporting_then_rejecting; ok_handler] (new None)))
      (GET "/a?x=1") = Some result
    ∧ ∀ handled, result = Normal handled →
        let t := trace (run handled) in
        let block :=
          error_events
            (use (UseFunction passing_then_throwing) []
               (get "/a" [reporting_then_rejecting; ok_handler] (new None)))
            (request_after handled) in
        (∀ e, block e
              = EvErrorHandler e
                :: (EvResponseEnd
                      <$> match error_handler
                                  (use (UseFunction passing_then_throwing) []
                                     (get "/a" [reporting_then_rejecting; ok_handler]
                                        (new None))) with
                          | Some error_handler => error_handler e (request_after handled)
                          | None => [message e]
                          end))
        ∧ (∀ pre post e, t = pre ++ EvThrow e :: post → block e `prefix_of` post)
        ∧ (∀ pre post e, t = pre ++ EvNext (Some e) :: post → block e `prefix_of` post)
        ∧ (∀ pre post e, t = pre ++ EvReturn (RetPromise (Rejected e)) :: post →
                         ∃ mid post', post = mid ++ block e ++ post').
Proof.
  apply (handler_errors_reach_error_handler no_native_parse_url
           (use (UseFunction passing_then_throwing) []
              (get "/a" [reporting_then_rejecting; ok_handler] (new None)))
           (GET "/a?x=1")).
Defined.

(** [GET /a?x=1] on an application that has [GET /a]: the request object
    gets the three parsed fields. *)
Lemma request_augmented_only_on_match_witness :
  ∃ chain st,
    handleRequest no_native_parse_url
      (get "/a" [ok_handler; ok_handler] (new None)) (GET "/a?x=1")
    = Some (Normal (mkHandled
              (mkRequest "/a?x=1" "GET" (Some "/a") (Some "x=1") (Some "?x=1"))
              chain st)).
Proof.
  apply (request_augmented_only_on_match no_native_parse_url
           (get "/a" [ok_handler; ok_handler] (new None)) (GET "/a?x=1")).
Defined.

(* ===================================================================== *)
(** * Further properties: [clean] and [split] *)
(* ===================================================================== *)

Section CleanSplitFacts.
Import JsString JsStringFacts.

Lemma char_is_head c rest code :
  char_is (String c rest) 0 code = Nat.eqb (nat_of_ascii c) code.
Proof. reflexivity. Qed.

Lemma drop_leading_slashes_head str :
  char_is (drop_leading_slashes str) 0 CHAR_CODES.SLASH = false.
Proof.
  induction str as [|c rest IH]; simpl; [done|].
  destruct (Nat.eqb (nat_of_ascii c) CHAR_CODES.SLASH) eqn:Hc; [exact IH|].
  by rewrite char_is_head.
Qed.

(** [str.substring(0, to)] within the string. *)
Lemma substring_0 str to :
  to ≤ String.length str → substring str 0 to = String.substring 0 to str.
Proof.
  intros Hto. unfold substring.
  replace (Nat.min 0 (String.length str)) with 0 by lia.
  replace (Nat.min to (String.length str)) with to by lia.
  replace (Nat.min 0 to) with 0 by lia.
  replace (Nat.max 0 to - 0) with to by lia. done.
Qed.

Lemma char_is_substring_0 str to code :
  char_is str 0 code = false →
  char_is (String.substring 0 to str) 0 code = false.
Proof.
  destruct str as [|c rest]; destruct to; simpl; auto.
Qed.

Lemma drop_trailing_slashes_head n str :
  char_is str 0 CHAR_CODES.SLASH = false →
  char_is (drop_trailing_slashes n str) 0 CHAR_CODES.SLASH = false.
Proof.
  revert str; induction n as [|n IH]; intros str Hhead; simpl; [done|].
  destruct (char_is str (String.length str - 1) CHAR_CODES.SLASH); [|done].
  apply IH. rewrite substring_0 by lia. by apply char_is_substring_0.
Qed.

(** A string that is not empty and has no separator at either end is
    clean. *)
Lemma clean_fixed str :
  str ≠ EmptyString →
  char_is str 0 CHAR_CODES.SLASH = false →
  char_is str (String.length str - 1) CHAR_CODES.SLASH = false →
  clean str = str.
Proof.
  intros Hne Hhead Hlast. unfold clean, JsString.eqb.
  case_bool_decide as Hsep; [done|].
  assert (drop_leading_slashes str = str) as ->.
  { destruct str as [|c rest]; [done|]. simpl.
    rewrite char_is_head in Hhead. by rewrite Hhead. }
  assert (drop_trailing_slashes (String.length str) str = str) as ->.
  { destruct str as [|c rest]; [done|].
    cbn [String.length drop_trailing_slashes]. cbn [String.length] in Hlast.
    by rewrite Hlast. }
  by rewrite bool_decide_eq_false_2.
Qed.

Lemma clean_ends str :
  clean str = SEPARATOR
  ∨ (char_is (clean str) 0 CHAR_CODES.SLASH = false
     ∧ char_is (clean str) (String.length (clean str) - 1) CHAR_CODES.SLASH = false).
Proof.
  unfold clean, JsString.eqb.
  case_bool_decide as Hsep; [by left|].
  case_bool_decide as Hempty; [by left|]. right. split.
  - apply drop_trailing_slashes_head, drop_leading_slashes_head.
  - by apply drop_trailing_slashes_stops.
Qed.

Lemma clean_idempotent str : clean (clean str) = clean str.
Proof.
  destruct (clean_ends str) as [->|[Hhead Hlast]]; [done|].
  apply clean_fixed; [apply clean_not_empty|done|done].
Qed.

End CleanSplitFacts.

(** X1.  [clean] gives a normal form: its result is never empty, it is [/]
    or a string with no [/] at either end, and cleaning it again changes
    nothing. *)
Theorem clean_normal_form (str : string) :
  clean str ≠ EmptyString
  ∧ (clean str = SEPARATOR
     ∨ (JsString.char_is (clean str) 0 CHAR_CODES.SLASH = false
        ∧ JsString.char_is (clean str) (String.length (clean str) - 1)
            CHAR_CODES.SLASH = false))
  ∧ clean (clean str) = clean str.
Proof.
  split; [apply clean_not_empty|]. split; [apply clean_ends|].
  apply clean_idempotent.
Qed.

Section SplitFacts.
Import JsString.

Lemma ascii_is_slash c :
  Nat.eqb (nat_of_ascii c) 47 = true → c = "/"%char.
Proof.
  intros H. apply Nat.eqb_eq in H.
  rewrite <- (ascii_nat_embedding c), H. reflexivity.
Qed.

Lemma split_slash_not_nil str : split_slash str ≠ [].
Proof.
  destruct str as [|c rest]; simpl; [done|].
  destruct (Nat.eqb (nat_of_ascii c) 47); [done|].
  by destruct (split_slash rest).
Qed.

(** Joining the pieces of [str.split('/')] gives the string back. *)
Lemma join_split_slash str : join (split_slash str) = str.
Proof.
  unfold join. induction str as [|c rest IH]; [done|].
  cbn [split_slash].
  destruct (Nat.eqb (nat_of_ascii c) 47) eqn:Hc.
  - apply ascii_is_slash in Hc as ->.
    pose proof (split_slash_not_nil rest) as Hne.
    destruct (split_slash rest) as [|piece pieces]; [done|].
    cbn [String.concat] in *. simpl. by rewrite IH.
  - pose proof (split_slash_not_nil rest) as Hne.
    destruct (split_slash rest) as [|piece pieces]; [done|].
    destruct pieces as [|piece' pieces]; simpl in *; by rewrite <- IH.
Qed.

Lemma contains_tail code c rest :
  contains code (String c rest) ↔ nat_of_ascii c = code ∨ contains code rest.
Proof.
  unfold contains, charCodeAt. split.
  - intros [[|index] H]; simpl in H.
    + left. congruence.
    + right. by exists index.
  - intros [<-|[index H]]; [by exists 0|by exists (S index)].
Qed.

Lemma split_slash_pieces str piece :
  piece ∈ split_slash str → ¬ contains 47 piece.
Proof.
  revert piece; induction str as [|c rest IH]; intros piece; cbn [split_slash].
  - intros ->%list_elem_of_singleton [index H]. by destruct index.
  - destruct (Nat.eqb (nat_of_ascii c) 47) eqn:Hc.
    + intros [->|Hin]%elem_of_cons; [|by apply IH].
      intros [index H]. by destruct index.
    + pose proof (split_slash_not_nil rest) as Hne.
      destruct (split_slash rest) as [|first pieces]; [done|].
      intros [->|Hin]%elem_of_cons.
      * rewrite contains_tail. intros [Heq|Hrest].
        -- apply Nat.eqb_neq in Hc. done.
        -- apply (IH first); [left|done].
      * apply IH. by right.
Qed.

End SplitFacts.

(** X2.  [split] and joining with [/] are a round trip on clean strings:
    the pieces of [split str], joined, are [clean str].  There is always at
    least one piece, no piece holds a [/] unless the path is the root, and
    [split] of the cleaned string gives the same pieces. *)
Theorem split_join_round_trip (str : string) :
  join (split str) = clean str
  ∧ split str ≠ []
  ∧ (clean str ≠ SEPARATOR →
     ∀ piece, piece ∈ split str → ¬ JsString.contains CHAR_CODES.SLASH piece)
  ∧ split (clean str) = split str.
Proof.
  unfold split. rewrite clean_idempotent.
  unfold JsString.eqb. case_bool_decide as Hsep.
  - rewrite Hsep. repeat split; done.
  - split; [apply join_split_slash|]. split; [apply split_slash_not_nil|].
    split; [|done]. intros _ piece. apply split_slash_pieces.
Qed.

(* ===================================================================== *)
(** * Further properties: [parseUrl] *)
(* ===================================================================== *)

Section ParseUrlFacts.
Import JsString JsStringFacts.

Lemma append_cons x (a b : string) : String x a +:+ b = String x (a +:+ b).
Proof. reflexivity. Qed.

Lemma append_nil_l (b : string) : EmptyString +:+ b = b.
Proof. reflexivity. Qed.

Lemma length_append (a b : string) :
  String.length (a +:+ b) = String.length a + String.length b.
Proof. induction a as [|c a IH]; simpl; auto. Qed.

Lemma get_append_r (a b : string) index :
  String.get (String.length a + index) (a +:+ b) = String.get index b.
Proof. induction a as [|c a IH]; simpl; auto. Qed.

Lemma drop_append (a b : string) : drop (String.length a) (a +:+ b) = b.
Proof. induction a as [|c a IH]; simpl; auto. Qed.

Lemma substring_append (a b : string) :
  String.substring 0 (String.length a) (a +:+ b) = a.
Proof.
  induction a as [|c a IH]; simpl; [by destruct b|]. by rewrite IH.
Qed.

Lemma append_assoc (a b c : string) : (a +:+ b) +:+ c = a +:+ (b +:+ c).
Proof. induction a as [|x a IH]; [done|]. by rewrite !append_cons, IH. Qed.

Lemma append_snoc (a : string) x (b : string) :
  (a +:+ String x EmptyString) +:+ b = a +:+ String x b.
Proof. by rewrite append_assoc. Qed.

Lemma length_snoc (a : string) x :
  String.length (a +:+ String x EmptyString) = S (String.length a).
Proof. rewrite length_append. simpl. lia. Qed.

Lemma charCodeAt_append (a : string) x (b : string) :
  charCodeAt (a +:+ String x b) (String.length a) = Some (nat_of_ascii x).
Proof.
  unfold charCodeAt.
  replace (String.length a) with (String.length a + 0) by lia.
  by rewrite get_append_r.
Qed.

(** Over characters that are neither [?] nor given up on, the loop of
    [parseUrl] goes on with what it has. *)
Lemma parseUrl_loop_plain (before span after : string) pathname query search_string :
  all_chars plain span = true →
  parseUrl_loop (String.length span + String.length after)
    (before +:+ span +:+ after) (String.length before) pathname query search_string
  = parseUrl_loop (String.length after)
      (before +:+ span +:+ after) (String.length before + String.length span)
      pathname query search_string.
Proof.
  revert before. induction span as [|c span IH]; intros before Hplain.
  { simpl. by rewrite Nat.add_0_r. }
  simpl in Hplain. apply andb_prop in Hplain as [Hc Hspan].
  unfold plain in Hc. apply andb_prop in Hc as [Hq Hg].
  apply negb_true_iff in Hq, Hg.
  cbn [String.length Nat.add parseUrl_loop]. rewrite append_cons.
  rewrite charCodeAt_append, Hq, Hg.
  specialize (IH (before +:+ String c EmptyString) Hspan).
  rewrite !append_snoc, length_snoc in IH. rewrite IH.
  f_equal. lia.
Qed.

(** Once the search string is set, the rest of the loop only looks for the
    codes on which it gives up. *)
Lemma parseUrl_loop_rest (before rest : string) pathname query search_string :
  not_set search_string = false →
  all_chars (λ code, negb (gives_up_on code)) rest = true →
  parseUrl_loop (String.length rest) (before +:+ rest) (String.length before)
    pathname query search_string
  = Some (pathname, query, search_string).
Proof.
  intros Hset. revert before. induction rest as [|c rest IH]; intros before Hrest.
  { done. }
  simpl in Hrest. apply andb_prop in Hrest as [Hc Hrest].
  apply negb_true_iff in Hc.
  cbn [String.length parseUrl_loop]. rewrite charCodeAt_append, Hset, Hc.
  specialize (IH (before +:+ String c EmptyString) Hrest).
  rewrite append_snoc, length_snoc in IH. rewrite IH.
  by destruct (_ =? _).
Qed.

(** A code on which the loop gives up makes it give up, wherever it is. *)
Lemma parseUrl_loop_gives_up (before : string) c (after : string)
    pathname query search_string :
  all_chars (λ code, negb (gives_up_on code)) before = true →
  gives_up_on (nat_of_ascii c) = true →
  ∀ start : string,
    parseUrl_loop (String.length before + S (String.length after))
      (start +:+ before +:+ String c after) (String.length start)
      pathname query search_string
    = None.
Proof.
  intros Hbefore Hc. revert pathname query search_string.
  induction before as [|x before IH]; intros pathname query search_string start.
  - cbn [String.length Nat.add parseUrl_loop]. rewrite append_nil_l.
    rewrite charCodeAt_append, Hc.
    destruct (nat_of_ascii c =? CHAR_CODES.QUESTION_MARK) eqn:Hq; [|done].
    apply Nat.eqb_eq in Hq. rewrite Hq in Hc. done.
  - simpl in Hbefore. apply andb_prop in Hbefore as [Hx Hbefore].
    apply negb_true_iff in Hx.
    cbn [String.length Nat.add parseUrl_loop]. rewrite append_cons.
    rewrite charCodeAt_append, Hx.
    pose proof (λ p q s, IH Hbefore p q s (start +:+ String x EmptyString)) as IH'.
    setoid_rewrite append_snoc in IH'. setoid_rewrite length_snoc in IH'.
    destruct (_ =? _); [destruct (not_set search_string)|]; apply IH'.
Qed.

End ParseUrlFacts.

Section ParseUrlTheorems.

Variable native_parse_url : string → Url.t.

(** X3.  A URL [/path?query] whose path holds no [?] and which holds none
    of the codes that [parseUrl] gives up on is parsed without the external
    parser: the pathname is the part before the first [?], the query the part
    after it, and the search string the [?] with the query. *)
Theorem parseUrl_with_query (pathname query : string) :
  JsString.char_is pathname 0 CHAR_CODES.SLASH = true →
  all_chars plain pathname = true →
  all_chars (λ code, negb (gives_up_on code)) query = true →
  parseUrl native_parse_url (pathname +:+ String "?" query)
  = Url.mk (Some pathname) (Some query) (Some (String "?" query)).
Proof.
  intros Hslash Hpath Hquery. unfold parseUrl.
  assert (JsString.char_is (pathname +:+ String "?" query) 0 CHAR_CODES.SLASH = true)
    as ->.
  { destruct pathname; [done|exact Hslash]. }
  cbn [negb]. rewrite length_append. cbn [String.length].
  pose proof (parseUrl_loop_plain EmptyString pathname (String "?" query)
                (pathname +:+ String "?" query) None None Hpath) as H1.
  rewrite !append_nil_l in H1. cbn [String.length Nat.add] in H1.
  rewrite H1. clear H1.
  cbn [parseUrl_loop]. rewrite charCodeAt_append.
  change (nat_of_ascii "?" =? CHAR_CODES.QUESTION_MARK) with true.
  cbn [not_set].
  rewrite substring_0 by (rewrite length_append; lia).
  rewrite substring_append.
  rewrite !JsStringFacts.substring_from_drop.
  replace (String.length pathname + 1)
    with (String.length (pathname +:+ String "?" EmptyString))
    by (rewrite length_snoc; lia).
  rewrite <- (append_snoc pathname "?" query) at 2.
  rewrite drop_append, drop_append.
  pose proof (parseUrl_loop_rest (pathname +:+ String "?" EmptyString) query
                pathname (Some query) (Some (String "?" query)) eq_refl Hquery) as H2.
  rewrite append_snoc, length_snoc in H2. by rewrite H2.
Qed.

(** X4.  A URL that starts with [/], holds no [?] and none of the codes
    that [parseUrl] gives up on is its own pathname, with no query and no
    search string; the external parser is not asked. *)
Theorem parseUrl_without_query (url : string) :
  JsString.char_is url 0 CHAR_CODES.SLASH = true →
  all_chars plain url = true →
  parseUrl native_parse_url url = Url.mk (Some url) None None.
Proof.
  intros Hslash Hplain. unfold parseUrl. rewrite Hslash. cbn [negb].
  pose proof (parseUrl_loop_plain EmptyString url EmptyString url None None Hplain)
    as H.
  rewrite !append_nil_l in H. cbn [String.length Nat.add] in H.
  assert (url +:+ EmptyString = url) as Hnil.
  { clear. induction url as [|c url IH]; [done|]. by rewrite append_cons, IH. }
  rewrite Hnil, Nat.add_0_r in H. rewrite H. reflexivity.
Qed.

(** X5.  A URL that does not start with [/], or that holds one of the codes
    9, 10, 12, 13, 20, 23 or 160 anywhere, is handed to the external parser
    as it is. *)
Theorem parseUrl_falls_back (url : string) :
  JsString.char_is url 0 CHAR_CODES.SLASH = false
  ∨ all_chars (λ code, negb (gives_up_on code)) url = false →
  parseUrl native_parse_url url = native_parse_url url.
Proof.
  intros Hurl. unfold parseUrl.
  destruct (JsString.char_is url 0 CHAR_CODES.SLASH); [|done].
  destruct Hurl as [|Hgive]; [done|]. cbn [negb].
  assert (∃ before c after,
            url = before +:+ String c after
            ∧ all_chars (λ code, negb (gives_up_on code)) before = true
            ∧ gives_up_on (nat_of_ascii c) = true) as (before & c & after & -> & Hb & Hc).
  { clear -Hgive. induction url as [|x url IH]; [done|].
    simpl in Hgive. destruct (gives_up_on (nat_of_ascii x)) eqn:Hx.
    - by exists EmptyString, x, url.
    - destruct (IH Hgive) as (before & c & after & -> & Hb & Hc).
      exists (String x before), c, after. rewrite append_cons. simpl.
      by rewrite Hx. }
  rewrite length_append. cbn [String.length].
  pose proof (parseUrl_loop_gives_up before c after
                (before +:+ String c after) None None Hb Hc EmptyString) as H.
  rewrite !append_nil_l in H. cbn [String.length] in H. by rewrite H.
Qed.

End ParseUrlTheorems.

(* ===================================================================== *)
(** * Further properties: [findRoute] and [addRoute] *)
(* ===================================================================== *)

Section FindRouteFacts.

Context {Handler : Type}.
Implicit Types (routes : gmap string (list (Route Handler))).

Lemma candidates_compiled routes method :
  compiled routes → Forall (λ set, pattern set ≠ []) (candidates routes method).
Proof.
  intros Hroutes. unfold candidates. apply Forall_app. split.
  - destruct (routes !! method) eqn:H; simpl; [by apply (Hroutes method)|constructor].
  - destruct (routes !! "*") eqn:H; simpl; [by apply (Hroutes "*")|constructor].
Qed.

(** [findRoute] on compiled patterns, in one equation. *)
Lemma findRoute_compiled routes method url :
  compiled routes →
  findRoute routes method (Some url)
  = Normal (match first_passing url (candidates routes method) with
            | Some set => Some (mkRouteSet (exec (clean url) (pattern set)) (handlers set))
            | None => None
            end).
Proof.
  intros Hroutes. unfold findRoute, matchRoutePattern.
  fold (candidates routes method).
  rewrite matchRoutePattern_loop_first by by apply candidates_compiled.
  unfold first_passing.
  assert (split (clean (clean url)) = split url) as ->.
  { unfold split. by rewrite !clean_idempotent. }
  simpl. by destruct (filter _ _) as [|set [|set' sets]].
Qed.

Lemma first_passing_app url (sets more : list (Route Handler)) set :
  first_passing url sets = Some set →
  first_passing url (sets ++ more) = Some set.
Proof.
  unfold first_passing. rewrite filter_app.
  by destruct (filter _ sets).
Qed.

Lemma first_passing_app_none url (sets more : list (Route Handler)) :
  first_passing url sets = None →
  first_passing url (sets ++ more) = first_passing url more.
Proof.
  unfold first_passing. rewrite filter_app.
  by destruct (filter _ sets).
Qed.

End FindRouteFacts.

Section RegistrationFacts.

(** Registration only adds routes, and adds them at the end of a list. *)
Lemma register_appends app r method :
  ∃ more,
    default [] (routes (register app r) !! method)
    = default [] (routes app !! method) ++ more.
Proof.
  destruct r as [[handler|path] handlers|method' pattern handlers]; simpl.
  - exists []. by rewrite app_nil_r.
  - exists []. rewrite app_nil_r. unfold use.
    by destruct (JsString.eqb path SEPARATOR).
  - unfold addRoute_table. destruct (decide (method' = method)) as [->|Hne].
    + rewrite lookup_insert_eq. by eexists.
    + rewrite lookup_insert_ne by done. exists []. by rewrite app_nil_r.
Qed.

Lemma registrations_append app later method :
  ∃ more,
    default [] (routes (foldl register app later) !! method)
    = default [] (routes app !! method) ++ more.
Proof.
  revert app. induction later as [|r later IH]; intros app; simpl.
  - exists []. by rewrite app_nil_r.
  - destruct (IH (register app r)) as (more & ->).
    destruct (register_appends app r method) as (more' & ->).
    exists (more' ++ more). by rewrite app_assoc.
Qed.

Lemma registrations_compiled app later :
  compiled (routes app) → compiled (routes (foldl register app later)).
Proof.
  revert app. induction later as [|r later IH]; intros app Happ; simpl; [done|].
  apply IH. by apply compiled_register.
Qed.

End RegistrationFacts.


(** X7.  A route registered for one method is not seen by the requests of
    another: [addRoute] for a method other than the request's and other than
    the wildcard method leaves the answer of [findRoute] as it was. *)
Theorem addRoute_other_method (app : LilCheetah) method pattern handlers
    request_method url :
  method ≠ request_method →
  method ≠ "*" →
  findRoute (routes (addRoute method pattern handlers app)) request_method url
  = findRoute (routes app) request_method url.
Proof.
  intros Hmethod Hwild. unfold findRoute, addRoute, addRoute_table. simpl.
  by rewrite !lookup_insert_ne.
Qed.

(** X8.  A route of the request's own method that wins keeps winning:
    whatever is registered later, for this or any other method, [findRoute]
    gives the same route for the same request. *)
Theorem earlier_registration_wins (app : LilCheetah) later method url set :
  compiled (routes app) →
  first_passing url (default [] (routes app !! method)) = Some set →
  findRoute (routes (foldl register app later)) method (Some url)
  = Normal (Some (mkRouteSet (exec (clean url) (pattern set)) (handlers set))).
Proof.
  intros Happ Hfirst.
  rewrite findRoute_compiled by by apply registrations_compiled.
  unfold candidates.
  destruct (registrations_append app later method) as (more & ->).
  by rewrite <- app_assoc, (first_passing_app _ _ _ _ Hfirst).
Qed.

(** X9.  The routes of the request's method come before the wildcard
    routes, whenever they were registered: a route added for the method takes
    a request over from the wildcard route that had it, when no earlier route
    of the method passes. *)
Theorem method_route_beats_wildcard (app : LilCheetah) method pattern handlers url :
  compiled (routes app) →
  method ≠ "*" →
  first_passing url (default [] (routes app !! method)) = None →
  route_passes (split url) (parseRoutePattern pattern) = true →
  findRoute (routes (addRoute method pattern handlers app)) method (Some url)
  = Normal (Some (mkRouteSet (exec (clean url) (parseRoutePattern pattern)) handlers)).
Proof.
  intros Happ Hwild Hnone Hpass.
  rewrite findRoute_compiled by by apply compiled_addRoute.
  unfold candidates, addRoute, addRoute_table. simpl.
  rewrite lookup_insert_eq, lookup_insert_ne by done. simpl.
  rewrite <- app_assoc, first_passing_app_none by done.
  unfold first_passing. simpl. rewrite filter_cons. simpl.
  by rewrite decide_True.
Qed.

(* ===================================================================== *)
(** * Further properties: what the matcher looks at *)
(* ===================================================================== *)

Section PrefixFacts.

Lemma isFullMatch_from_app url_pieces index (front back : list Segment) :
  isFullMatch_from url_pieces index (front ++ back)
  = isFullMatch_from url_pieces index front
    && isFullMatch_from url_pieces (index + length front) back.
Proof.
  revert index. induction front as [|pattern_piece front IH]; intros index; simpl.
  - by rewrite Nat.add_0_r.
  - destruct (isMatch (url_pieces !! index) pattern_piece); simpl; [|done].
    rewrite IH. do 2 f_equal. lia.
Qed.

(** Past the end of the path there is no piece, and [isMatch] accepts a
    missing piece for every segment that is not Static. *)
Lemma isFullMatch_from_past url_pieces index (pattern : list Segment) :
  length url_pieces ≤ index →
  isFullMatch_from url_pieces index pattern = forallb not_static pattern.
Proof.
  revert index. induction pattern as [|pattern_piece pattern IH]; intros index Hpast;
    simpl; [done|].
  rewrite (lookup_ge_None_2 url_pieces index Hpast).
  rewrite IH by lia. unfold isMatch, not_static.
  repeat (case_bool_decide; simplify_eq; simpl); try done.
Qed.

(** Only the pieces under the pattern are read. *)
Lemma isFullMatch_from_take url_pieces index (pattern : list Segment) :
  isFullMatch_from (take (index + length pattern) url_pieces) index pattern
  = isFullMatch_from url_pieces index pattern.
Proof.
  revert index. induction pattern as [|pattern_piece pattern IH]; intros index;
    simpl; [done|].
  rewrite lookup_take_lt by lia.
  replace (index + S (length pattern)) with (S index + length pattern) by lia.
  by rewrite IH.
Qed.

Lemma exec_from_take url_pieces index (pattern : list Segment) parameters :
  exec_from (take (index + length pattern) url_pieces) index pattern parameters
  = exec_from url_pieces index pattern parameters.
Proof.
  revert index parameters.
  induction pattern as [|pattern_piece pattern IH]; intros index parameters;
    simpl; [done|].
  replace (index + S (length pattern)) with (S index + length pattern) by lia.
  rewrite IH. f_equal. unfold exec_step.
  rewrite lookup_take_lt by lia. done.
Qed.

End PrefixFacts.

Section SingleRoute.

Context {Handler : Type}.

Lemma split_clean str : split (clean str) = split str.
Proof. unfold split. by rewrite clean_idempotent. Qed.

(** [matchRoutePattern] on one route with a compiled pattern. *)
Lemma matchRoutePattern_single url (set : Route Handler) :
  pattern set ≠ [] →
  matchRoutePattern url [set]
  = Normal (if route_passes (split url) (pattern set) then [set] else []).
Proof.
  intros Hne. unfold matchRoutePattern.
  rewrite split_clean, matchRoutePattern_loop_first by (by repeat constructor).
  rewrite filter_cons, filter_nil.
  destruct (route_passes (split url) (pattern set)); by try case_decide.
Qed.

Lemma route_passes_longer (url_pieces : list string) (pattern : list Segment) :
  length url_pieces < length pattern →
  route_passes url_pieces pattern
  = bool_decide (type <$> last pattern = Some OPTIONAL)
    && isFullMatch url_pieces (take (length url_pieces) pattern)
    && forallb not_static (drop (length url_pieces) pattern).
Proof.
  intros Hlonger. unfold route_passes.
  replace (length url_pieces =? length pattern) with false
    by (symmetry; apply Nat.eqb_neq; lia).
  replace (length pattern <? length url_pieces) with false
    by (symmetry; apply Nat.ltb_ge; lia).
  replace (length url_pieces <? length pattern) with true
    by (symmetry; apply Nat.ltb_lt; lia).
  simpl. rewrite <- andb_assoc. f_equal. unfold isFullMatch.
  rewrite <- (take_drop (length url_pieces) pattern) at 1.
  rewrite isFullMatch_from_app. f_equal.
  rewrite isFullMatch_from_past; [done|].
  rewrite length_take. lia.
Qed.

Lemma route_passes_shorter (url_pieces : list string) (pattern : list Segment) :
  length pattern < length url_pieces →
  route_passes url_pieces pattern
  = bool_decide (type <$> last pattern = Some ANY)
    && isFullMatch (take (length pattern) url_pieces) pattern.
Proof.
  intros Hshorter. unfold route_passes.
  replace (length url_pieces =? length pattern) with false
    by (symmetry; apply Nat.eqb_neq; lia).
  replace (length pattern <? length url_pieces) with true
    by (symmetry; apply Nat.ltb_lt; lia).
  replace (length url_pieces <? length pattern) with false
    by (symmetry; apply Nat.ltb_ge; lia).
  simpl. rewrite orb_false_r. f_equal. unfold isFullMatch.
  by rewrite <- (isFullMatch_from_take url_pieces 0 pattern).
Qed.

(** X10.  A route whose pattern is longer than the path matches exactly
    when the pattern ends in an Optional segment, the pieces of the path match
    the segments under them, and no segment past the end of the path is
    Static: a Parameter segment past the end of the path is accepted without
    a piece. *)
Theorem longer_pattern_matches (url : string) (set : Route Handler) :
  length (split url) < length (pattern set) →
  matchRoutePattern url [set]
  = Normal
      (if bool_decide (type <$> last (pattern set) = Some OPTIONAL)
          && isFullMatch (split url) (take (length (split url)) (pattern set))
          && forallb not_static (drop (length (split url)) (pattern set))
       then [set] else []).
Proof.
  intros Hlonger. rewrite matchRoutePattern_single.
  - by rewrite route_passes_longer.
  - intros Hnil. rewrite Hnil in Hlonger. simpl in Hlonger. lia.
Qed.

(** X11.  A route whose pattern is shorter than the path matches exactly
    when the pattern ends in an Any segment and the first pieces of the path
    match its segments; the pieces past the end of the pattern are not looked
    at. *)
Theorem shorter_pattern_matches (url : string) (set : Route Handler) :
  pattern set ≠ [] →
  length (pattern set) < length (split url) →
  matchRoutePattern url [set]
  = Normal
      (if bool_decide (type <$> last (pattern set) = Some ANY)
          && isFullMatch (take (length (pattern set)) (split url)) (pattern set)
       then [set] else []).
Proof.
  intros Hne Hshorter. rewrite matchRoutePattern_single by done.
  by rewrite route_passes_shorter.
Qed.

End SingleRoute.

(** X12.  [exec] reads one piece for each segment and no more: two paths
    with the same first pieces, as many as the pattern has segments, give the
    same parameters.  Under a final Any segment only the first of the pieces
    that it stands for is recorded. *)
Theorem exec_reads_pattern_length (url url' : string) (pattern : list Segment) :
  take (length pattern) (split url) = take (length pattern) (split url') →
  exec url pattern = exec url' pattern.
Proof.
  intros Hsame. unfold exec.
  rewrite <- (exec_from_take (split url) 0), <- (exec_from_take (split url') 0).
  simpl. by rewrite Hsame.
Qed.

(* ===================================================================== *)
(** * Further properties: the order of the handlers *)
(* ===================================================================== *)

Section OrderFacts.

Lemma invoked_app t1 t2 : invoked (t1 ++ t2) = invoked t1 ++ invoked t2.
Proof. apply omap_app. Qed.

Lemma invocations_app n a b c :
  a ≤ b → b ≤ c → invocations n a b ++ invocations n b c = invocations n a c.
Proof.
  intros Hab Hbc. unfold invocations. rewrite <- fmap_app. f_equal.
  replace (Nat.min c n - Nat.min a n)
    with ((Nat.min b n - Nat.min a n) + (Nat.min c n - Nat.min b n)) by lia.
  rewrite seq_app. do 2 f_equal. lia.
Qed.

Lemma invocations_same n a : invocations n a a = [].
Proof. unfold invocations. by rewrite Nat.sub_diag. Qed.

Lemma in_order_refl n st st' :
  handler_index st' = handler_index st →
  invoked (trace st') = invoked (trace st) →
  in_order n st st'.
Proof.
  intros Hi Ht. split; [lia|]. by rewrite Hi, Ht, invocations_same, app_nil_r.
Qed.

Lemma in_order_trans n st1 st2 st3 :
  in_order n st1 st2 → in_order n st2 st3 → in_order n st1 st3.
Proof.
  intros [H1 E1] [H2 E2]. split; [lia|].
  by rewrite E2, E1, <- app_assoc, invocations_app.
Qed.

Lemma invoked_error_events app request e : invoked (error_events app request e) = [].
Proof.
  unfold error_events. simpl.
  generalize (default defaultErrorHandler (error_handler app) e request).
  intros bodies. by induction bodies.
Qed.

Section Chain.

Variable app : LilCheetah.
Variable request : Request.
Variable handlers : list Handler.

Lemma handleError_in_order e st :
  in_order (length handlers) st (handleError app request e st).
Proof.
  rewrite handleError_log. apply in_order_refl; [done|].
  simpl. by rewrite invoked_app, invoked_error_events, app_nil_r.
Qed.

Lemma log_in_order events st :
  invoked events = [] → in_order (length handlers) st (log events st).
Proof.
  intros H. apply in_order_refl; [done|].
  simpl. by rewrite invoked_app, H, app_nil_r.
Qed.

Lemma next_in_order (k : Run → option Run) error st st' :
  (∀ st1 st2, k st1 = Some st2 → in_order (length handlers) st1 st2) →
  next app request k error st = Some st' →
  in_order (length handlers) st st'.
Proof.
  intros Hk. destruct error as [e|]; simpl.
  - intros [= <-]. apply handleError_in_order.
  - apply Hk.
Qed.

Lemma run_actions_in_order nxt actions st st' thrown :
  (∀ k, nxt = Some k →
     ∀ error st1 st2, k error st1 = Some st2 → in_order (length handlers) st1 st2) →
  run_actions nxt actions st = Some (st', thrown) →
  in_order (length handlers) st st'.
Proof.
  intros Hnext. revert st.
  induction actions as [|[body|error|callback] rest IH]; intros st; cbn [run_actions].
  - intros [= <- _]. by apply in_order_refl.
  - intros H. apply IH in H.
    eapply in_order_trans; [|exact H]. by apply log_in_order.
  - destruct nxt as [k|].
    + destruct (k error (log [EvNext error] st)) as [st1|] eqn:Hk; [|done].
      cbn [mbind option_bind]. intros H. apply IH in H.
      eapply in_order_trans; [by apply (log_in_order [EvNext error])|].
      eapply in_order_trans; [|exact H]. by apply (Hnext k eq_refl error _ _ Hk).
    + intros [= <- _]. by apply in_order_refl.
  - intros H. apply IH in H.
    eapply in_order_trans; [|exact H]. by apply in_order_refl.
Qed.

(** One call of a handler: the cursor moves on by one, and the call is
    recorded when there is a handler under the cursor. *)
Lemma invocations_step index :
  invocations (length handlers) index (S index)
  = match handlers !! index with
    | Some _ =>
        [(index,
          bool_decide (is_Some
            (if (Z.of_nat index =? Z.of_nat (length handlers) - 1)%Z
             then None else Some tt)))]
    | None => []
    end.
Proof.
  unfold invocations. destruct (handlers !! index) eqn:Hcallee.
  - apply lookup_lt_Some in Hcallee.
    replace (Nat.min (S index) (length handlers) - Nat.min index (length handlers))
      with 1 by lia.
    replace (Nat.min index (length handlers)) with index by lia. simpl.
    do 2 f_equal.
    destruct (Z.eqb_spec (Z.of_nat index) (Z.of_nat (length handlers) - 1)) as [He|Hne].
    + replace (index + 1 =? length handlers) with true
        by (symmetry; apply Nat.eqb_eq; lia).
      done.
    + replace (index + 1 =? length handlers) with false
        by (symmetry; apply Nat.eqb_neq; lia).
      done.
  - apply lookup_ge_None in Hcallee.
    replace (Nat.min (S index) (length handlers) - Nat.min index (length handlers))
      with 0 by lia. done.
Qed.

Lemma loop_in_order fuel st st' :
  loop app request handlers fuel st = Some st' →
  handler_index st < handler_index st' ∧ in_order (length handlers) st st'.
Proof.
  revert st st'. induction fuel as [|fuel IH]; intros st st'; [done|].
  cbn [loop].
  set (nxt := if (Z.of_nat (handler_index st) =? Z.of_nat (length handlers) - 1)%Z
              then None
              else Some (next app request (loop app request handlers fuel))).
  assert (bool_decide (is_Some nxt)
          = bool_decide (is_Some
              (if (Z.of_nat (handler_index st) =? Z.of_nat (length handlers) - 1)%Z
               then None else Some tt))) as Hflag.
  { subst nxt. by destruct (_ =? _)%Z. }
  assert (∀ k, nxt = Some k →
            ∀ error st1 st2, k error st1 = Some st2 →
                             in_order (length handlers) st1 st2) as Hnext.
  { intros k Hk error st1 st2. subst nxt.
    destruct (_ =? _)%Z; [done|]. injection Hk as <-.
    destruct error as [e|]; simpl.
    - intros [= <-]. apply handleError_in_order.
    - intros H. by apply IH in H as [_ H]. }
  pose proof (invocations_step (handler_index st)) as Hstep.
  destruct (handlers !! handler_index st) as [handler|] eqn:Hcallee.
  - unfold call_handler.
    destruct (run_actions nxt _ _) as [[st1 thrown]|] eqn:Hrun; [|done].
    cbn [mbind option_bind].
    apply (run_actions_in_order _ _ _ _ _ Hnext) in Hrun as [Hidx Hinv].
    simpl in Hidx, Hinv. rewrite invoked_app in Hinv. simpl in Hinv.
    assert (∀ stf,
      handler_index stf = handler_index st1 →
      invoked (trace stf) = invoked (trace st1) →
      handler_index st < handler_index stf ∧ in_order (length handlers) st stf) as Hend.
    { intros stf Hi Ht. split; [lia|]. split; [lia|].
      rewrite Ht, Hinv, Hi, Hflag, <- app_assoc. f_equal.
      rewrite <- (invocations_app _ (handler_index st) (S (handler_index st)))
        by lia.
      by rewrite Hstep. }
    destruct (match thrown with Some e => Throw e | None => outcome (handler request) end)
      as [result|e].
    + intros [= <-]. apply Hend.
      * by destruct result.
      * destruct result; simpl; by rewrite invoked_app, app_nil_r.
    + intros [= <-]. rewrite handleError_log. apply Hend; [done|].
      simpl. by rewrite !invoked_app, invoked_error_events, !app_nil_r.
  - intros [= <-]. rewrite handleError_log. simpl. split; [lia|]. split; [simpl; lia|].
    simpl. by rewrite invoked_app, invoked_error_events, Hstep, !app_nil_r.
Qed.

Lemma invoked_rejection_events promises :
  invoked (rejection_events (error_events app request) promises) = [].
Proof.
  induction promises as [|s promises IH]; [done|].
  rewrite rejection_events_cons, invoked_app, IH.
  destruct s; [done|done|]. by rewrite invoked_error_events.
Qed.

Lemma settle_in_order st : in_order (length handlers) st (settle app request st).
Proof.
  destruct (settle_trace app request st) as (Ht & _ & Hi & _).
  apply in_order_refl; [done|].
  by rewrite Ht, invoked_app, invoked_rejection_events, app_nil_r.
Qed.

Lemma drain_in_order fuel st st' :
  drain app request handlers fuel st = Some st' →
  in_order (length handlers) st st'.
Proof.
  revert st st'. induction fuel as [|fuel IH]; intros st st'; [done|].
  cbn [drain]. pose proof (settle_in_order st) as Hsettle.
  destruct (queue (settle app request st)) as [|[with_next callback] rest] eqn:Hq.
  { by intros [= <-]. }
  set (st1 := mkRun _ _ _ rest).
  assert (in_order (length handlers) (settle app request st) st1) as H1.
  { apply in_order_refl; [done|]. subst st1. simpl.
    by rewrite invoked_app, app_nil_r. }
  set (nxt := if with_next then _ else None).
  destruct (run_actions nxt callback st1) as [[st2 thrown]|] eqn:Hrun; [|done].
  cbn [mbind option_bind].
  apply run_actions_in_order in Hrun.
  2:{ intros k Hk error sta stb. subst nxt. destruct with_next; [|done].
      injection Hk as <-. apply next_in_order.
      intros stc std H.
      exact (proj2 (loop_in_order (S (length handlers)) stc std H)). }
  assert (in_order (length handlers) st st2) as H2.
  { eapply in_order_trans; [exact Hsettle|].
    eapply in_order_trans; [exact H1|exact Hrun]. }
  destruct thrown as [e|].
  - intros [= <-]. eapply in_order_trans; [exact H2|]. by apply log_in_order.
  - intros H. apply IH in H. eapply in_order_trans; [exact H2|exact H].
Qed.

End Chain.

End OrderFacts.

Section OrderTheorems.

Variable native_parse_url : string → Url.t.

(** [serve] always returns. *)
Lemma serve_returns app request :
  ∃ result, serve native_parse_url app request = Some result.
Proof.
  pose proof (handleRequest_cases native_parse_url app request) as H.
  unfold serve.
  destruct (findRoute _ _ _) as [[route_set|]|e].
  - destruct H as (hs & st & -> & Hfun & Hpend & Hpot & _).
    cbn [mbind option_bind request_after chain run].
    destruct (drain_grows app (augmented native_parse_url request) hs
                (S (potential (augmented native_parse_url request) hs start)) st)
      as (st' & seg & -> & _); [lia| |by eexists].
    split; [done|]. rewrite Hpend. apply answered_by_callbacks.
    + intros e He. by apply rejection_events_holds.
    + apply rejection_events_quiet.
  - rewrite H. by eexists.
  - rewrite H. by eexists.
Qed.

(** What [handleRequest] leaves when it has found a route and does not take
    the single-handler branch: the chain is the global middleware followed by
    the handlers of the route, its first handler has been called, and the
    calls so far are in the order of the chain. *)
Lemma handleRequest_in_order app request route_set handled :
  findRoute (routes app) (method request)
    (Url.pathname (parseUrl native_parse_url (url request)))
    = Normal (Some route_set) →
  (length (middlewares app) =? 0) && (length (route_handlers route_set) =? 1) = false →
  handleRequest native_parse_url app request = Some (Normal handled) →
  request_after handled = augmented native_parse_url request
  ∧ chain handled = middlewares app ++ route_handlers route_set
  ∧ 0 < handler_index (run handled)
  ∧ in_order (length (chain handled)) start (run handled).
Proof.
  intros Hroute Hbranch. unfold handleRequest. rewrite Hroute, Hbranch.
  destruct (loop _ _ _ _ _) as [st|] eqn:Hloop; [|done].
  intros [= <-]. simpl. apply loop_in_order in Hloop as [Hidx Horder].
  split; [done|]. split; [done|]. split; [simpl in Hidx; lia|]. exact Horder.
Qed.

(** X13.  When a route is found and the single-handler branch is not taken,
    the chain that runs is the global middleware, in registration order,
    followed by the handlers of the route.  The request is handled to the end,
    and the handlers that have been called are the first [k] of the chain, in
    the order of the chain and each once, whatever the handlers do with
    [next]; the first handler is always called, and only the last handler of
    the chain is called without a [next]. *)
Theorem handlers_run_in_chain_order app request route_set :
  findRoute (routes app) (method request)
    (Url.pathname (parseUrl native_parse_url (url request)))
    = Normal (Some route_set) →
  (length (middlewares app) =? 0) && (length (route_handlers route_set) =? 1) = false →
  ∃ handled k,
    serve native_parse_url app request = Some (Normal handled)
    ∧ chain handled = middlewares app ++ route_handlers route_set
    ∧ k ≤ length (chain handled)
    ∧ (chain handled ≠ [] → 1 ≤ k)
    ∧ invoked (trace (run handled))
      = (λ index, (index, negb (index + 1 =? length (chain handled)))) <$> seq 0 k.
Proof.
  intros Hroute Hbranch.
  destruct (serve_returns app request) as [result Hserve].
  unfold serve in Hserve |- *.
  destruct (handleRequest native_parse_url app request) as [[handled|e]|] eqn:Hreq;
    [| |done].
  2:{ unfold handleRequest in Hreq. rewrite Hroute, Hbranch in Hreq.
      by destruct (loop _ _ _ _ _). }
  destruct (handleRequest_in_order app request route_set handled Hroute Hbranch Hreq)
    as (Hrequest & Hchain & Hfirst & Horder).
  cbn [mbind option_bind] in Hserve |- *.
  destruct (drain _ _ _ _ _) as [st|] eqn:Hdrain; [|done].
  pose proof (drain_in_order _ _ _ _ _ _ Hdrain) as Hlater.
  destruct (in_order_trans _ _ _ _ Horder Hlater) as [Hidx Hinv].
  destruct Hlater as [Hlater _].
  exists (mkHandled (request_after handled) (chain handled) st),
         (Nat.min (handler_index st) (length (chain handled))).
  cbn [mbind option_bind chain run].
  split; [done|]. split; [done|]. split; [lia|]. split.
  { intros Hne.
    assert (0 < length (chain handled))
      by (destruct (chain handled); simpl; [done|lia]).
    lia. }
  rewrite Hinv. unfold invocations. simpl. by rewrite Nat.sub_0_r.
Qed.


End OrderTheorems.

(* ===================================================================== *)
(** * Further properties: the compiler, piece by piece *)
(* ===================================================================== *)

Section PieceFacts.
Import JsString JsStringFacts.

Lemma length_drop n str : String.length (drop n str) = String.length str - n.
Proof.
  revert str; induction n as [|n IH]; intros [|c rest]; simpl; auto.
Qed.

Lemma char_is_drop str index code :
  char_is str index code = char_is (drop index str) 0 code.
Proof.
  unfold char_is, charCodeAt. by rewrite get_drop, Nat.add_0_r.
Qed.

Lemma Ssubstring_empty n m : String.substring n m EmptyString = EmptyString.
Proof. by destruct n, m. Qed.

Lemma Ssubstring_drop index n m str :
  String.substring (index + n) m str = String.substring n m (drop index str).
Proof.
  revert str; induction index as [|index IH]; intros str; [done|].
  destruct str as [|c rest]; cbn [drop Nat.add].
  - by rewrite !Ssubstring_empty.
  - simpl. apply IH.
Qed.

Lemma Ssubstring_prefix (piece tail : string) n m :
  n + m ≤ String.length piece →
  String.substring n m (piece +:+ tail) = String.substring n m piece.
Proof.
  revert n m. induction piece as [|c piece IH]; intros n m H; simpl in H.
  - assert (n = 0) as -> by lia. assert (m = 0) as -> by lia.
    rewrite append_nil_l. by destruct tail.
  - rewrite append_cons. destruct n as [|n]; simpl.
    + destruct m as [|m]; [done|]. f_equal. apply IH. lia.
    + apply IH. lia.
Qed.

(** [substring] between two positions of a piece that starts at [index]. *)
Lemma substring_piece pattern index (piece tail : string) from to :
  index ≤ String.length pattern →
  drop index pattern = piece +:+ tail →
  from ≤ to ≤ String.length piece →
  substring pattern (index + from) (index + to) = substring piece from to.
Proof.
  intros Hindex Hdrop H.
  assert (String.length pattern - index = String.length piece + String.length tail)
    as Hlen by (by rewrite <- length_drop, Hdrop, length_append).
  unfold substring.
  replace (Nat.min (index + from) (String.length pattern)) with (index + from) by lia.
  replace (Nat.min (index + to) (String.length pattern)) with (index + to) by lia.
  replace (Nat.min from (String.length piece)) with from by lia.
  replace (Nat.min to (String.length piece)) with to by lia.
  replace (Nat.min (index + from) (index + to)) with (index + from) by lia.
  replace (Nat.max (index + from) (index + to) - (index + from)) with (to - from) by lia.
  replace (Nat.min from to) with from by lia.
  replace (Nat.max from to - from) with (to - from) by lia.
  rewrite Ssubstring_drop, Hdrop. apply Ssubstring_prefix. lia.
Qed.

Lemma char_is_piece (piece tail : string) code :
  code ≠ CHAR_CODES.SLASH →
  char_is tail 0 CHAR_CODES.SLASH = true ∨ tail = EmptyString →
  char_is (piece +:+ tail) 0 code = char_is piece 0 code.
Proof.
  intros Hcode Htail. destruct piece as [|c piece]; [|done].
  rewrite append_nil_l. destruct Htail as [Hslash| ->]; [|done].
  unfold char_is in *. destruct (charCodeAt tail 0) as [x|]; [|done].
  apply Nat.eqb_eq in Hslash as ->. by apply Nat.eqb_neq.
Qed.

Lemma scan_static_piece (piece : string) pattern index (tail : string) :
  drop index pattern = piece +:+ tail →
  no_slash piece = true →
  char_is tail 0 CHAR_CODES.SLASH = true ∨ tail = EmptyString →
  scan_static (String.length pattern - index) pattern index
  = index + String.length piece.
Proof.
  revert index. induction piece as [|c piece IH]; intros index Hdrop Hpiece Htail.
  - rewrite append_nil_l in Hdrop. rewrite <- length_drop, Hdrop, Nat.add_0_r.
    destruct Htail as [Hslash| ->]; [|done].
    destruct tail as [|x tail]; [done|]. simpl.
    by rewrite char_is_drop, Hdrop, Hslash.
  - rewrite append_cons in Hdrop.
    assert (String.length pattern - index = S (String.length pattern - S index)) as ->.
    { rewrite <- !length_drop.
      replace (S index) with (index + 1) by lia.
      rewrite <- drop_drop, Hdrop. simpl. lia. }
    unfold no_slash in Hpiece. simpl in Hpiece.
    apply andb_prop in Hpiece as [Hc Hpiece]. apply negb_true_iff in Hc.
    simpl. rewrite char_is_drop, Hdrop, char_is_head, Hc.
    rewrite IH; [lia| |done|done].
    replace (S index) with (index + 1) by lia.
    by rewrite <- drop_drop, Hdrop.
Qed.

Lemma scan_parameter_piece (piece : string) pattern index (tail : string)
    type reset_index :
  drop index pattern = piece +:+ tail →
  no_slash piece = true →
  char_is tail 0 CHAR_CODES.SLASH = true ∨ tail = EmptyString →
  scan_parameter (String.length pattern - index) pattern index type reset_index
  = match last_index_of CHAR_CODES.QUESTION_MARK piece with
    | Some k => (index + String.length piece, OPTIONAL, index + k)
    | None => (index + String.length piece, type, reset_index)
    end.
Proof.
  revert index type reset_index.
  induction piece as [|c piece IH]; intros index type reset_index Hdrop Hpiece Htail.
  - rewrite append_nil_l in Hdrop. rewrite <- length_drop, Hdrop, Nat.add_0_r.
    destruct Htail as [Hslash| ->]; [|done].
    destruct tail as [|x tail]; [done|]. simpl.
    by rewrite char_is_drop, Hdrop, Hslash.
  - rewrite append_cons in Hdrop.
    assert (String.length pattern - index = S (String.length pattern - S index)) as ->.
    { rewrite <- !length_drop.
      replace (S index) with (index + 1) by lia.
      rewrite <- drop_drop, Hdrop. simpl. lia. }
    unfold no_slash in Hpiece. simpl in Hpiece.
    apply andb_prop in Hpiece as [Hc Hpiece]. apply negb_true_iff in Hc.
    assert (drop (S index) pattern = piece +:+ tail) as Hdrop'.
    { replace (S index) with (index + 1) by lia.
      by rewrite <- drop_drop, Hdrop. }
    cbn [scan_parameter last_index_of String.length].
    rewrite !(char_is_drop pattern index), Hdrop, !char_is_head, Hc.
    destruct (nat_of_ascii c =? CHAR_CODES.QUESTION_MARK).
    + rewrite (IH (S index) OPTIONAL index Hdrop' Hpiece Htail).
      destruct (last_index_of _ piece);
        by rewrite ?Nat.add_0_r, <- ?Nat.add_succ_comm.
    + rewrite (IH (S index) type reset_index Hdrop' Hpiece Htail).
      destruct (last_index_of _ piece);
        by rewrite ?Nat.add_0_r, <- ?Nat.add_succ_comm.
Qed.

Lemma last_index_of_bound code str k :
  last_index_of code str = Some k → k < String.length str.
Proof.
  revert k. induction str as [|c str IH]; intros k; simpl; [done|].
  destruct (last_index_of code str) as [j|].
  - intros [= <-]. specialize (IH j eq_refl). lia.
  - destruct (_ =? _); [|done]. intros [= <-]. lia.
Qed.

(** The last [?] of a piece that starts with [:] is not its first
    character. *)
Lemma last_index_of_colon (piece : string) k :
  char_is piece 0 CHAR_CODES.COLON = true →
  last_index_of CHAR_CODES.QUESTION_MARK piece = Some k →
  0 < k.
Proof.
  destruct piece as [|c piece]; [done|]. rewrite char_is_head. simpl.
  intros Hc. destruct (last_index_of _ piece); [intros [= <-]; lia|].
  apply Nat.eqb_eq in Hc. rewrite Hc. done.
Qed.

Lemma join_cons piece rest :
  join (piece :: rest)
  = piece +:+ match rest with
              | [] => EmptyString
              | _ :: _ => SEPARATOR +:+ join rest
              end.
Proof.
  unfold join. destruct rest as [|next rest]; simpl; [|done].
  induction piece as [|c piece IH]; [done|]. by rewrite append_cons, <- IH.
Qed.

Lemma substring_whole (str : string) :
  substring str 0 (String.length str) = str.
Proof.
  unfold substring. rewrite Nat.min_id.
  replace (Nat.min 0 (String.length str)) with 0 by lia.
  replace (Nat.min 0 (String.length str)) with 0 by lia.
  replace (Nat.max 0 (String.length str) - 0) with (String.length str) by lia.
  apply substring_all.
Qed.

(** The loop of [parseRoutePattern] on the pieces that are left: it appends
    the segment of each piece. *)
Lemma parse_loop_pieces pieces :
  ∀ fuel original pattern index result,
    forallb no_slash pieces = true →
    last pieces ≠ Some EmptyString →
    wildcard_last pieces = true →
    drop index pattern = join pieces →
    length pieces ≤ fuel →
    parse_loop fuel original pattern (String.length pattern) index result
    = Some (result ++ fmap (piece_segment original) pieces).
Proof.
  induction pieces as [|piece rest IH];
    intros fuel original pattern index result Hpieces Hlast Hwild Hdrop Hfuel.
  { assert ((index <? String.length pattern) = false) as Hend.
    { apply Nat.ltb_ge. pose proof (length_drop index pattern) as H.
      rewrite Hdrop in H. simpl in H. lia. }
    rewrite app_nil_r. destruct fuel; simpl; by rewrite Hend. }
  rewrite join_cons in Hdrop.
  set (tail := match rest with
               | [] => EmptyString
               | _ :: _ => SEPARATOR +:+ join rest
               end) in Hdrop.
  assert (char_is tail 0 CHAR_CODES.SLASH = true ∨ tail = EmptyString) as Htail.
  { subst tail. destruct rest; [by right|by left]. }
  assert (drop 1 tail = join rest) as Hrest.
  { subst tail. by destruct rest. }
  assert (last rest ≠ Some EmptyString) as Hlast'.
  { destruct rest as [|next rest]; [done|]. exact Hlast. }
  simpl in Hpieces. apply andb_prop in Hpieces as [Hpiece Hpieces].
  assert (index < String.length pattern) as Hindex.
  { pose proof (length_drop index pattern) as H.
    rewrite Hdrop, length_append in H.
    destruct piece as [|c piece]; [|simpl in H; lia].
    destruct rest as [|next rest]; [done|]. subst tail. simpl in H. lia. }
  assert (index ≤ String.length pattern) as Hle by lia.
  apply Nat.ltb_lt in Hindex as Hlt.
  destruct fuel as [|fuel]; [simpl in Hfuel; lia|]. simpl in Hfuel.
  assert (∀ segment,
    parse_loop fuel original
      (substring_from pattern (index + String.length piece))
      (String.length pattern - (index + String.length piece)) (0 + 1)
      (result ++ [segment])
    = Some (result ++ segment :: fmap (piece_segment original) rest)) as Hnext.
  { intros segment.
    rewrite substring_from_drop, <- length_drop.
    rewrite (IH fuel original _ 1 (result ++ [segment])); try done.
    - by rewrite <- app_assoc.
    - destruct rest as [|next rest]; [done|].
      simpl in Hwild. by apply andb_prop in Hwild as [_ Hwild].
    - by rewrite <- drop_drop, Hdrop, drop_append.
    - lia. }
  cbn [parse_loop fmap list_fmap]. rewrite Hlt. cbn [negb].
  rewrite !(char_is_drop pattern index), Hdrop, !char_is_piece by done.
  unfold piece_segment.
  destruct (char_is piece 0 CHAR_CODES.COLON) eqn:Hcolon.
  - rewrite (scan_parameter_piece piece pattern index tail PARAMETER 0 Hdrop Hpiece Htail).
    destruct (last_index_of CHAR_CODES.QUESTION_MARK piece) as [k|] eqn:Hk.
    + pose proof (last_index_of_bound _ _ _ Hk).
      pose proof (last_index_of_colon _ _ Hcolon Hk).
      replace (index + k =? 0) with false by (symmetry; apply Nat.eqb_neq; lia).
      rewrite (substring_piece pattern index piece tail 1 k Hle Hdrop) by lia.
      apply Hnext.
    + cbn [Nat.eqb].
      assert (1 ≤ String.length piece) by (destruct piece; [done|simpl; lia]).
      rewrite (substring_piece pattern index piece tail 1 (String.length piece) Hle Hdrop)
        by lia.
      apply Hnext.
  - destruct (char_is piece 0 CHAR_CODES.ASTERIX) eqn:Hstar.
    + assert (rest = [] ∧ piece = "*") as [-> ->].
      { destruct rest as [|next rest]; simpl in Hwild; rewrite Hstar in Hwild.
        - split; [done|]. unfold eqb in Hwild. simpl in Hwild.
          by apply bool_decide_eq_true in Hwild.
        - done. }
      unfold eqb. rewrite bool_decide_eq_true_2 by done.
      rewrite substring_from_drop, Hdrop.
      rewrite (IH fuel original pattern (index + 1) _);
        [simpl; by rewrite app_nil_r|done|done|done| |simpl; lia].
      by rewrite <- drop_drop, Hdrop.
    + assert (eqb piece "*" = false) as ->.
      { unfold eqb. apply bool_decide_eq_false_2. by intros ->. }
      rewrite (scan_static_piece piece pattern index tail Hdrop Hpiece Htail).
      pose proof (substring_piece pattern index piece tail 0 (String.length piece)
                    Hle Hdrop) as Hvalue.
      rewrite Nat.add_0_r, substring_whole in Hvalue.
      rewrite Hvalue by lia. apply Hnext.
Qed.

Lemma no_slash_pieces (piece : string) :
  ¬ contains CHAR_CODES.SLASH piece → no_slash piece = true.
Proof.
  unfold no_slash. induction piece as [|c piece IH]; intros H; simpl; [done|].
  apply andb_true_intro. split.
  - apply negb_true_iff, Nat.eqb_neq. intros Hc. apply H, contains_tail. by left.
  - apply IH. intros Hin. apply H, contains_tail. by right.
Qed.

Lemma split_slash_last (str : string) :
  last (split_slash str) = Some EmptyString →
  str = EmptyString ∨ char_is str (String.length str - 1) CHAR_CODES.SLASH = true.
Proof.
  induction str as [|c rest IH]; [by left|]. right.
  cbn [split_slash] in H.
  pose proof (split_slash_not_nil rest) as Hne.
  assert (rest ≠ EmptyString →
          char_is (String c rest) (String.length (String c rest) - 1) CHAR_CODES.SLASH
          = char_is rest (String.length rest - 1) CHAR_CODES.SLASH) as Hshift.
  { intros Hrest. destruct rest as [|x rest]; [done|]. simpl.
    by rewrite Nat.sub_0_r. }
  destruct (Nat.eqb (nat_of_ascii c) 47) eqn:Hc.
  - destruct (split_slash rest) as [|piece pieces] eqn:Hsplit; [done|].
    rewrite last_cons_cons in H. destruct (IH H) as [->|Hslash].
    + simpl. by rewrite char_is_head.
    + rewrite Hshift; [done|]. intros ->. done.
  - destruct (split_slash rest) as [|piece pieces] eqn:Hsplit; [done|].
    destruct pieces as [|next pieces]; [done|].
    rewrite last_cons_cons in H.
    assert (last (piece :: next :: pieces) = Some EmptyString) as H'
      by (by rewrite last_cons_cons).
    destruct (IH H') as [->|Hslash]; [done|].
    rewrite Hshift; [done|]. intros ->. done.
Qed.

Lemma length_split_slash (str : string) :
  length (split_slash str) ≤ S (String.length str).
Proof.
  induction str as [|c rest IH]; simpl; [lia|].
  destruct (Nat.eqb (nat_of_ascii c) 47); simpl; [lia|].
  destruct (split_slash rest); simpl in *; lia.
Qed.

End PieceFacts.

(** The compiled pattern, piece by piece. *)
Lemma parseRoutePattern_pieces (pattern : string) :
  wildcard_last (split pattern) = true →
  parseRoutePattern pattern = piece_segment pattern <$> split pattern.
Proof.
  intros Hwild.
  destruct (decide (clean pattern = SEPARATOR)) as [Heq|Hne].
  { unfold parseRoutePattern, split, JsString.eqb.
    rewrite !bool_decide_eq_true_2 by done. by rewrite Heq. }
  pose proof (parseRoutePattern_loop pattern Hne) as Hloop.
  assert (split pattern = JsString.split_slash (clean pattern)) as Hsplit.
  { unfold split, JsString.eqb. by rewrite bool_decide_eq_false_2. }
  rewrite Hsplit in Hwild |- *.
  rewrite (parse_loop_pieces (JsString.split_slash (clean pattern)) _ pattern
             (clean pattern) 0 []) in Hloop.
  - by injection Hloop as <-.
  - apply forallb_forall. intros piece Hin%list_elem_of_In.
    by apply no_slash_pieces, (split_slash_pieces (clean pattern)).
  - intros [Hempty|Hslash]%split_slash_last.
    + by apply clean_not_empty in Hempty.
    + destruct (clean_ends pattern) as [Hsep|[_ Hend]]; congruence.
  - done.
  - symmetry. apply join_split_slash.
  - apply length_split_slash.
Qed.

(** X15.  The compiler works piece by piece.  When no piece of the pattern
    starts with [*], except that the last piece may be [*], the compiled
    pattern has one segment for each piece of [split], in order: an optional
    parameter for a piece [:name?], named by what lies between the [:] and
    the last [?]; a parameter for any other piece that starts with [:]; a
    wildcard for the piece [*]; a static segment for any other piece. *)
Theorem parseRoutePattern_by_piece (pattern : string) :
  wildcard_last (split pattern) = true →
  parseRoutePattern pattern = piece_segment pattern <$> split pattern.
Proof. apply parseRoutePattern_pieces. Qed.

Lemma parseRoutePattern_by_piece_witness :
  wildcard_last (split "/users/:id?/files/*") = true
  ∧ parseRoutePattern "/users/:id?/files/*"
    = piece_segment "/users/:id?/files/*" <$> split "/users/:id?/files/*".
Proof.
  split; [reflexivity|]. by apply parseRoutePattern_by_piece.
Defined.

(* ===================================================================== *)
(** * Further properties: literal routes *)
(* ===================================================================== *)

Section LiteralFacts.

Lemma isFullMatch_from_shift url_piece url_pieces index (pattern : list Segment) :
  isFullMatch_from (url_piece :: url_pieces) (S index) pattern
  = isFullMatch_from url_pieces index pattern.
Proof.
  revert index. induction pattern as [|pattern_piece pattern IH]; intros index;
    simpl; [done|].
  by rewrite IH.
Qed.

Lemma isMatch_static url_piece source piece :
  isMatch (Some url_piece) (mkSegment source STATIC piece)
  = bool_decide (url_piece = piece).
Proof.
  unfold isMatch. simpl.
  repeat (case_bool_decide; simplify_eq; simpl); done.
Qed.

Lemma isFullMatch_static source (pieces url_pieces : list string) :
  isFullMatch url_pieces (mkSegment source STATIC <$> pieces)
  = bool_decide (take (length pieces) url_pieces = pieces).
Proof.
  unfold isFullMatch. revert url_pieces.
  induction pieces as [|piece pieces IH]; intros url_pieces.
  { by rewrite take_0. }
  destruct url_pieces as [|url_piece url_pieces].
  { rewrite take_nil. symmetry. by apply bool_decide_eq_false_2. }
  cbn [fmap list_fmap isFullMatch_from lookup list_lookup length take].
  rewrite isMatch_static, isFullMatch_from_shift, IH.
  repeat (case_bool_decide; simplify_eq; simpl); try done; congruence.
Qed.

Lemma last_fmap_static source (pieces : list string) t :
  t ≠ STATIC →
  bool_decide (type <$> last (mkSegment source STATIC <$> pieces) = Some t) = false.
Proof.
  intros Ht. apply bool_decide_eq_false_2. rewrite fmap_last.
  destruct (last pieces); simpl; congruence.
Qed.

Lemma route_passes_static source (pieces url_pieces : list string) :
  route_passes url_pieces (mkSegment source STATIC <$> pieces)
  = bool_decide (url_pieces = pieces).
Proof.
  unfold route_passes.
  rewrite !last_fmap_static by done. rewrite !andb_false_r, !orb_false_r.
  rewrite isFullMatch_static, length_fmap.
  destruct (Nat.eqb_spec (length url_pieces) (length pieces)) as [Heq|Hne]; simpl.
  - by rewrite <- Heq, firstn_all.
  - symmetry. apply bool_decide_eq_false_2. by intros ->.
Qed.

Lemma join_split str : join (split str) = clean str.
Proof.
  unfold split, JsString.eqb. case_bool_decide as Hsep.
  - by rewrite Hsep.
  - apply join_split_slash.
Qed.

Lemma literal_wildcard_last (pieces : list string) :
  forallb literal pieces = true → wildcard_last pieces = true.
Proof.
  induction pieces as [|piece rest IH]; [done|]. simpl.
  intros [Hpiece Hrest]%andb_prop.
  unfold literal in Hpiece. apply andb_prop in Hpiece as [_ ->].
  destruct rest; [done|]. by apply IH.
Qed.

Lemma piece_segment_literal source (pieces : list string) :
  forallb literal pieces = true →
  piece_segment source <$> pieces = mkSegment source STATIC <$> pieces.
Proof.
  induction pieces as [|piece rest IH]; [done|]. cbn [forallb].
  intros [Hpiece Hrest]%andb_prop. rewrite !fmap_cons, IH by done. f_equal.
  unfold literal in Hpiece. apply andb_prop in Hpiece as [Hcolon Hstar].
  apply negb_true_iff in Hcolon, Hstar.
  unfold piece_segment. rewrite Hcolon.
  unfold JsString.eqb. rewrite bool_decide_eq_false_2; [done|].
  by intros ->.
Qed.

End LiteralFacts.

(** X16.  A pattern without parameters and wildcards stands for one path:
    when no piece of the pattern starts with [:] or [*], the route matches
    exactly the URLs that [clean] to the same string as the pattern, so that
    the slashes at either end of the pattern and of the URL make no
    difference. *)
Theorem literal_route_matches_same_path {Handler : Type}
    (source url : string) (hs : list Handler) :
  forallb literal (split source) = true →
  matchRoutePattern url [mkRoute (parseRoutePattern source) hs]
  = Normal (if bool_decide (clean url = clean source)
            then [mkRoute (parseRoutePattern source) hs] else []).
Proof.
  intros Hliteral.
  rewrite matchRoutePattern_single by apply parseRoutePattern_not_empty.
  cbn [pattern]. rewrite parseRoutePattern_pieces
    by (by apply literal_wildcard_last).
  rewrite piece_segment_literal, route_passes_static by done.
  assert (bool_decide (split url = split source)
          = bool_decide (clean url = clean source)) as ->; [|done].
  apply bool_decide_ext. split.
  - intros H. by rewrite <- (join_split url), <- (join_split source), H.
  - intros H. by rewrite <- (split_clean url), <- (split_clean source), H.
Qed.

Lemma literal_route_matches_same_path_witness :
  forallb literal (split "/api/users/") = true
  ∧ matchRoutePattern "api/users" [mkRoute (parseRoutePattern "/api/users/") [tt]]
    = Normal (if bool_decide (clean "api/users" = clean "/api/users/")
              then [mkRoute (parseRoutePattern "/api/users/") [tt]] else []).
Proof.
  split; [reflexivity|]. by apply literal_route_matches_same_path.
Defined.

(* ===================================================================== *)
(** * Further properties: what the registrations leave *)
(* ===================================================================== *)

Section RegisteredFacts.

Lemma appendSeparator_head path :
  JsString.char_is (appendSeparator path) 0 CHAR_CODES.SLASH = true.
Proof.
  unfold appendSeparator.
  by destruct (JsString.char_is path 0 CHAR_CODES.SLASH) eqn:Hhead.
Qed.

Lemma register_middlewares app r :
  middlewares (register app r) = middlewares app ++ global_handlers r.
Proof.
  destruct r as [[handler|path] hs|method pattern hs]; simpl.
  - done.
  - unfold use. by destruct (JsString.eqb path SEPARATOR); simpl; rewrite ?app_nil_r.
  - by rewrite app_nil_r.
Qed.

Lemma register_error_handler app r :
  error_handler (register app r) = error_handler app.
Proof.
  destruct r as [[handler|path] hs|method pattern hs]; simpl; [done| |done].
  unfold use. by destruct (JsString.eqb path SEPARATOR).
Qed.

Lemma register_bucket app r key :
  default [] (base_middlewares (register app r) !! key)
  = default [] (base_middlewares app !! key) ++ scoped_handlers key r.
Proof.
  destruct r as [[handler|path] hs|method pattern hs]; simpl;
    rewrite ?app_nil_r; try done.
  unfold use, JsString.eqb.
  case_bool_decide as Hroot; simpl; [by rewrite app_nil_r|].
  case_bool_decide as Hkey.
  - subst key. by rewrite lookup_insert_eq.
  - rewrite lookup_insert_ne by done. by rewrite app_nil_r.
Qed.

Lemma register_keys app r key :
  is_Some (base_middlewares (register app r) !! key) →
  is_Some (base_middlewares app !! key)
  ∨ JsString.char_is key 0 CHAR_CODES.SLASH = true.
Proof.
  destruct r as [[handler|path] hs|method pattern hs]; simpl; auto.
  unfold use. destruct (JsString.eqb path SEPARATOR); simpl; auto.
  destruct (decide (appendSeparator path = key)) as [<-|Hne].
  - intros _. right. apply appendSeparator_head.
  - rewrite lookup_insert_ne by done. auto.
Qed.

Lemma foldl_register_state app registrations :
  middlewares (foldl register app registrations)
  = middlewares app ++ (registrations ≫= global_handlers)
  ∧ error_handler (foldl register app registrations) = error_handler app
  ∧ ∀ key,
      default [] (base_middlewares (foldl register app registrations) !! key)
      = default [] (base_middlewares app !! key)
        ++ (registrations ≫= scoped_handlers key)
      ∧ (is_Some (base_middlewares (foldl register app registrations) !! key) →
         is_Some (base_middlewares app !! key)
         ∨ JsString.char_is key 0 CHAR_CODES.SLASH = true).
Proof.
  revert app. induction registrations as [|r registrations IH]; intros app.
  { simpl. rewrite !app_nil_r. split; [done|]. split; [done|]. intros key.
    rewrite app_nil_r. auto. }
  cbn [foldl]. destruct (IH (register app r)) as (Hm & He & Hb).
  rewrite Hm, He, register_middlewares, register_error_handler.
  split; [by rewrite <- app_assoc|]. split; [done|]. intros key.
  destruct (Hb key) as [Hbucket Hkeys]. split.
  - by rewrite Hbucket, register_bucket, <- app_assoc.
  - intros [H|H]%Hkeys; [|by right]. by apply register_keys in H.
Qed.

End RegisteredFacts.

(** X17.  What an application holds after any sequence of registrations.
    The global middleware is what [use] was given with a function or with the
    path [/], in the order of the calls.  The bucket of a key holds the
    handlers of the calls of [use] whose path, with a [/] put in front when it
    has none, is that key, in the order of the calls; every key of a bucket
    starts with [/].  The error handler is the one given to the constructor,
    or the default one, and no registration changes it. *)
Theorem registered_state (configured : option ErrorHandler)
    (registrations : list registration) :
  middlewares (registered configured registrations)
  = registrations ≫= global_handlers
  ∧ error_handler (registered configured registrations)
    = Some (default defaultErrorHandler configured)
  ∧ ∀ key,
      default [] (base_middlewares (registered configured registrations) !! key)
      = registrations ≫= scoped_handlers key
      ∧ (is_Some (base_middlewares (registered configured registrations) !! key) →
         JsString.char_is key 0 CHAR_CODES.SLASH = true).
Proof.
  unfold registered.
  destruct (foldl_register_state (new configured) registrations) as (Hm & He & Hb).
  split; [done|]. split; [done|]. intros key.
  destruct (Hb key) as [Hbucket Hkeys]. split; [done|].
  intros [H|H]%Hkeys; [|done]. simpl in H. rewrite lookup_empty in H.
  by destruct H.
Qed.

(* ===================================================================== *)
(** * Further properties: a first handler that keeps the request *)
(* ===================================================================== *)

Section HeldFacts.

Variable app : LilCheetah.
Variable request : Request.

Lemma held_same st st' :
  handler_index st' = handler_index st → queue st' = queue st → held st st'.
Proof. intros Hi Hq. split; [done|]. unfold queue_holds. by rewrite Hq. Qed.

Lemma held_trans st1 st2 st3 : held st1 st2 → held st2 st3 → held st1 st3.
Proof. intros [H1 Q1] [H2 Q2]. split; [congruence|auto]. Qed.

Lemma handleError_held e st : held st (handleError app request e st).
Proof. rewrite handleError_log. by apply held_same. Qed.

Lemma next_error_held (k : Run → option Run) e st st' :
  next app request k (Some e) st = Some st' → held st st'.
Proof. simpl. intros [= <-]. apply handleError_held. Qed.

Lemma run_actions_held nxt actions st st' thrown :
  existsb passes_on actions = false →
  (∀ k, nxt = Some k →
     ∀ e st1 st2, k (Some e) st1 = Some st2 → held st1 st2) →
  run_actions nxt actions st = Some (st', thrown) →
  held st st'.
Proof.
  intros Hquiet Hnext. revert st Hquiet.
  induction actions as [|[body|error|callback] rest IH]; intros st Hquiet;
    cbn [run_actions]; cbn [existsb passes_on] in Hquiet.
  - intros [= <- _]. by apply held_same.
  - intros H. apply IH in H; [|done].
    eapply held_trans; [|exact H]. by apply held_same.
  - destruct error as [e|]; [|done]. simpl in Hquiet.
    destruct nxt as [k|].
    + destruct (k (Some e) (log [EvNext (Some e)] st)) as [st1|] eqn:Hk; [|done].
      cbn [mbind option_bind]. intros H. apply IH in H; [|done].
      eapply held_trans; [by apply (held_same st (log [EvNext (Some e)] st))|].
      eapply held_trans; [|exact H]. by apply (Hnext k eq_refl e _ _ Hk).
    + intros [= <- _]. by apply held_same.
  - apply orb_false_elim in Hquiet as [Hcallback Hrest].
    intros H. apply IH in H; [|done].
    eapply held_trans; [|exact H]. split; [done|].
    unfold queue_holds. simpl. intros Hq. apply Forall_app. split; [done|].
    by repeat constructor.
Qed.

Variable handlers : list Handler.

Lemma loop_held fuel st st' handler :
  handlers !! handler_index st = Some handler →
  existsb passes_on (actions (handler request)) = false →
  loop app request handlers fuel st = Some st' →
  handler_index st' = S (handler_index st) ∧ (queue_holds st → queue_holds st').
Proof.
  intros Hcallee Hquiet. destruct fuel as [|fuel]; [done|].
  cbn [loop]. destruct (handlers !! handler_index st) as [callee|] eqn:Hc; [|done].
  injection Hcallee as ->. unfold call_handler.
  set (nxt := if (_ =? _)%Z then None else Some _).
  destruct (run_actions nxt _ _) as [[st1 thrown]|] eqn:Hrun; [|done].
  cbn [mbind option_bind].
  apply run_actions_held in Hrun as [Hidx Hq]; [|done|].
  2:{ intros k Hk e st2 st3. subst nxt. destruct (_ =? _)%Z; [done|].
      injection Hk as <-. apply next_error_held. }
  simpl in Hidx. unfold queue_holds in Hq. simpl in Hq.
  destruct (match thrown with Some e => Throw e | None => outcome (handler request) end)
    as [result|e].
  - intros [= <-]. by destruct result.
  - intros [= <-]. by rewrite handleError_log.
Qed.

Lemma drain_held fuel st st' :
  queue_holds st →
  drain app request handlers fuel st = Some st' →
  handler_index st' = handler_index st.
Proof.
  revert st st'. induction fuel as [|fuel IH]; intros st st' Hq; [done|].
  cbn [drain].
  destruct (settle_trace app request st) as (_ & _ & Hi & Hqueue).
  unfold queue_holds in Hq. rewrite <- Hqueue in Hq.
  destruct (queue (settle app request st)) as [|[with_next callback] rest] eqn:Hqs.
  { intros [= <-]. done. }
  apply Forall_cons in Hq as [Hcallback Hrest]. simpl in Hcallback.
  set (st1 := mkRun _ _ _ rest).
  set (nxt := if with_next then _ else None).
  destruct (run_actions nxt callback st1) as [[st2 thrown]|] eqn:Hrun; [|done].
  cbn [mbind option_bind].
  apply run_actions_held in Hrun as [Hidx Hq2]; [|done|].
  2:{ intros k Hk e sta stb. subst nxt. destruct with_next; [|done].
      injection Hk as <-. apply next_error_held. }
  specialize (Hq2 Hrest). simpl in Hidx.
  destruct thrown as [e|].
  - intros [= <-]. simpl. congruence.
  - intros H. apply IH in H; [congruence|done].
Qed.

End HeldFacts.

Section HeldTheorems.

Variable native_parse_url : string → Url.t.

(** The general branch of [handleRequest] is one call of [loop] on the
    chain. *)
Lemma handleRequest_loop app request route_set handled :
  findRoute (routes app) (method request)
    (Url.pathname (parseUrl native_parse_url (url request)))
    = Normal (Some route_set) →
  (length (middlewares app) =? 0) && (length (route_handlers route_set) =? 1) = false →
  handleRequest native_parse_url app request = Some (Normal handled) →
  request_after handled = augmented native_parse_url request
  ∧ chain handled = middlewares app ++ route_handlers route_set
  ∧ loop app (request_after handled) (chain handled) (S (length (chain handled))) start
    = Some (run handled).
Proof.
  intros Hroute Hbranch. unfold handleRequest. rewrite Hroute, Hbranch.
  destruct (loop _ _ _ _ _) as [st|] eqn:Hloop; [|done].
  intros [= <-]. by simpl.
Qed.

(** X18.  A first handler that never calls [next] without an error, neither
    at once nor from a callback, keeps the request: when the single-handler
    branch is not taken, the request is handled to the end and no other
    handler of the chain is called. *)
Theorem first_handler_without_next_ends_chain app request route_set handler rest :
  findRoute (routes app) (method request)
    (Url.pathname (parseUrl native_parse_url (url request)))
    = Normal (Some route_set) →
  (length (middlewares app) =? 0) && (length (route_handlers route_set) =? 1) = false →
  middlewares app ++ route_handlers route_set = handler :: rest →
  existsb passes_on (actions (handler (augmented native_parse_url request))) = false →
  ∃ handled,
    serve native_parse_url app request = Some (Normal handled)
    ∧ invoked (trace (run handled)) = [(0, negb (length rest =? 0))].
Proof.
  intros Hroute Hbranch Hchain Hquiet.
  destruct (serve_returns native_parse_url app request) as [result Hserve].
  unfold serve in Hserve |- *.
  destruct (handleRequest native_parse_url app request) as [[handled|e]|] eqn:Hreq;
    [| |done].
  2:{ unfold handleRequest in Hreq. rewrite Hroute, Hbranch in Hreq.
      by destruct (loop _ _ _ _ _). }
  destruct (handleRequest_loop app request route_set handled Hroute Hbranch Hreq)
    as (Hrequest & Hhandlers & Hloop).
  cbn [mbind option_bind] in Hserve |- *.
  destruct (drain _ _ _ _ _) as [st|] eqn:Hdrain; [|done].
  exists (mkHandled (request_after handled) (chain handled) st).
  split; [done|]. cbn [run].
  rewrite Hchain in Hhandlers.
  pose proof (loop_in_order _ _ _ _ _ _ Hloop) as [_ Horder].
  pose proof (drain_in_order _ _ _ _ _ _ Hdrain) as Hlater.
  destruct (in_order_trans _ _ _ _ Horder Hlater) as [_ Hinv].
  apply (loop_held _ _ _ _ _ _ handler) in Hloop as [Hidx Hq].
  - apply drain_held in Hdrain; [|apply Hq; constructor].
    rewrite Hinv, Hdrain, Hidx, Hhandlers. by destruct rest.
  - by rewrite Hhandlers.
  - by rewrite Hrequest.
Qed.

End HeldTheorems.

(** A middleware that answers and a route handler behind it. *)
Lemma first_handler_without_next_ends_chain_witness :
  ∃ handled,
    serve no_native_parse_url
      (use (UseFunction ok_handler) [] (get "/a" [ok_handler] (new None))) (GET "/a")
    = Some (Normal handled)
    ∧ invoked (trace (run handled)) = [(0, negb (length [ok_handler] =? 0))].
Proof.
  apply (first_handler_without_next_ends_chain no_native_parse_url
           (use (UseFunction ok_handler) [] (get "/a" [ok_handler] (new None)))
           (GET "/a") (mkRouteSet {[ "a" := "a" ]} [ok_handler]) ok_handler [ok_handler]).
  - vm_compute. reflexivity.
  - reflexivity.
  - reflexivity.
  - reflexivity.
Defined.

(* ===================================================================== *)
(** * Further properties: a request without a pathname *)
(* ===================================================================== *)

Section PathnameTheorems.

Variable native_parse_url : string → Url.t.

(** X19.  When the parsed URL has no pathname, [findRoute] throws while it
    cleans the path, before any route is looked at.  Nothing in
    [handleRequest] catches this: the exception leaves [handleRequest], no
    handler is called, and neither the error handler nor the response is
    reached. *)
Theorem request_without_pathname_throws app request :
  Url.pathname (parseUrl native_parse_url (url request)) = None →
  findRoute (routes app) (method request)
    (Url.pathname (parseUrl native_parse_url (url request)))
  = Throw (mkError TypeError "Cannot read properties of null (reading 'charCodeAt')")
  ∧ serve native_parse_url app request
    = Some (Throw (mkError TypeError
                     "Cannot read properties of null (reading 'charCodeAt')")).
Proof.
  intros Hnone. unfold serve, handleRequest. by rewrite Hnone.
Qed.

End PathnameTheorems.

(** [?x=1] does not start with [/]; the external parser of these examples
    gives it no pathname. *)
Lemma request_without_pathname_throws_witness :
  findRoute (routes (get "/a" [ok_handler] (new None))) (method (GET "?x=1"))
    (Url.pathname (parseUrl no_native_parse_url (url (GET "?x=1"))))
  = Throw (mkError TypeError "Cannot read properties of null (reading 'charCodeAt')")
  ∧ serve no_native_parse_url (get "/a" [ok_handler] (new None)) (GET "?x=1")
    = Some (Throw (mkError TypeError
                     "Cannot read properties of null (reading 'charCodeAt')")).
Proof.
  apply (request_without_pathname_throws no_native_parse_url
           (get "/a" [ok_handler] (new None)) (GET "?x=1")).
  reflexivity.
Defined.

(* ===================================================================== *)
(** * The further properties at concrete inputs *)
(* ===================================================================== *)

(** [/a/b?x=1] is split at its [?]. *)
Lemma parseUrl_with_query_witness :
  parseUrl no_native_parse_url ("/a/b" +:+ String "?" "x=1")
  = Url.mk (Some "/a/b") (Some "x=1") (Some (String "?" "x=1")).
Proof.
  apply (parseUrl_with_query no_native_parse_url "/a/b" "x=1"); reflexivity.
Defined.

(** [/a/b] has a pathname and nothing else. *)
Lemma parseUrl_without_query_witness :
  parseUrl no_native_parse_url "/a/b" = Url.mk (Some "/a/b") None None.
Proof.
  apply (parseUrl_without_query no_native_parse_url "/a/b"); reflexivity.
Defined.

(** [a/b] does not start with [/] and goes to the external parser. *)
Lemma parseUrl_falls_back_witness :
  parseUrl no_native_parse_url "a/b" = no_native_parse_url "a/b".
Proof.
  apply (parseUrl_falls_back no_native_parse_url "a/b"). left. reflexivity.
Defined.

(** A [POST] route is not seen by a [GET] request. *)
Lemma addRoute_other_method_witness :
  findRoute (routes (addRoute "POST" "/a" [ok_handler] (new None))) "GET" (Some "/a")
  = findRoute (routes (new None)) "GET" (Some "/a").
Proof.
  apply (addRoute_other_method (new None) "POST" "/a" [ok_handler] "GET" (Some "/a"));
    intros [=].
Defined.

(** [GET /a] keeps its route when [GET /:x] and a wildcard-method [/a] are
    registered after it. *)
Lemma earlier_registration_wins_witness :
  findRoute
    (routes (foldl register (get "/a" [ok_handler] (new None))
               [AddRoute "GET" "/:x" [passing]; AddRoute "*" "/a" [passing]]))
    "GET" (Some "/a")
  = Normal (Some (mkRouteSet
                    (exec (clean "/a") (pattern (mkRoute (parseRoutePattern "/a")
                                                   [ok_handler])))
                    (handlers (mkRoute (parseRoutePattern "/a") [ok_handler])))).
Proof.
  apply (earlier_registration_wins (get "/a" [ok_handler] (new None))
           [AddRoute "GET" "/:x" [passing]; AddRoute "*" "/a" [passing]]
           "GET" "/a" (mkRoute (parseRoutePattern "/a") [ok_handler])).
  - apply compiled_addRoute, compiled_empty.
  - vm_compute. reflexivity.
Defined.

(** A [GET] route for [/a] registered after the wildcard-method route for
    [/a] takes the [GET] requests. *)
Lemma method_route_beats_wildcard_witness :
  findRoute (routes (addRoute "GET" "/a" [passing] (all "/a" [ok_handler] (new None))))
    "GET" (Some "/a")
  = Normal (Some (mkRouteSet (exec (clean "/a") (parseRoutePattern "/a")) [passing])).
Proof.
  apply (method_route_beats_wildcard (all "/a" [ok_handler] (new None))
           "GET" "/a" [passing] "/a").
  - apply compiled_addRoute, compiled_empty.
  - intros [=].
  - vm_compute. reflexivity.
  - vm_compute. reflexivity.
Defined.

(** [/users] under [/users/:id?]: the optional parameter is left out. *)
Lemma longer_pattern_matches_witness :
  matchRoutePattern "/users" [mkRoute (parseRoutePattern "/users/:id?") [tt]]
  = Normal [mkRoute (parseRoutePattern "/users/:id?") [tt]].
Proof.
  apply (longer_pattern_matches "/users"
           (mkRoute (parseRoutePattern "/users/:id?") [tt])).
  vm_compute. lia.
Defined.

(** [/files/a/b] under [/files/*]: the wildcard stands for two pieces. *)
Lemma shorter_pattern_matches_witness :
  matchRoutePattern "/files/a/b" [mkRoute (parseRoutePattern "/files/*") [tt]]
  = Normal [mkRoute (parseRoutePattern "/files/*") [tt]].
Proof.
  apply (shorter_pattern_matches "/files/a/b"
           (mkRoute (parseRoutePattern "/files/*") [tt])).
  - intros [=].
  - vm_compute. lia.
Defined.

(** [/files/a/b] and [/files/a/c] under [/files/*]: the same parameters. *)
Lemma exec_reads_pattern_length_witness :
  exec "/files/a/b" (parseRoutePattern "/files/*")
  = exec "/files/a/c" (parseRoutePattern "/files/*").
Proof.
  apply (exec_reads_pattern_length "/files/a/b" "/files/a/c"
           (parseRoutePattern "/files/*")).
  reflexivity.
Defined.

(** One middleware and one route handler: the middleware is first in the
    chain. *)
Lemma handlers_run_in_chain_order_witness :
  ∃ handled k,
    serve no_native_parse_url
      (use (UseFunction passing) [] (get "/a" [ok_handler] (new None))) (GET "/a")
    = Some (Normal handled)
    ∧ chain handled
      = middlewares (use (UseFunction passing) [] (get "/a" [ok_handler] (new None)))
        ++ route_handlers (mkRouteSet {[ "a" := "a" ]} [ok_handler])
    ∧ k ≤ length (chain handled)
    ∧ (chain handled ≠ [] → 1 ≤ k)
    ∧ invoked (trace (run handled))
      = (λ index, (index, negb (index + 1 =? length (chain handled)))) <$> seq 0 k.
Proof.
  apply (handlers_run_in_chain_order no_native_parse_url
           (use (UseFunction passing) [] (get "/a" [ok_handler] (new None)))
           (GET "/a") (mkRouteSet {[ "a" := "a" ]} [ok_handler])).
  - vm_compute. reflexivity.
  - reflexivity.
Defined.

